(** * Verification of jina-ai/correlations

    A shallow embedding of [src/commands/corr.ts] and [src/utils/reader.ts]
    and the proofs of the properties stated about them.

    - JavaScript numbers are IEEE 754 binary64 values: Rocq's primitive
      [float], whose operations are specified by [FloatAxioms] against
      [SpecFloat] (round to nearest, ties to even). [Math.sqrt] is taken
      to be the correctly rounded square root, as the engines compute it.
    - JavaScript strings are sequences of UTF-16 code units.
    - Exceptions are values of a sum type; the file system, the [path]
      module and the HTTP client are an explicit environment.
    - The streams of [loadEmbeddings] are the sequence of events they
      emit; the ndjson parser emits one ['data'] event per valid line. *)

From Stdlib Require Import Reals Lra Psatz.
From Stdlib Require Import ZArith NArith Bool String Ascii Lia.
From Stdlib Require Import Floats.
From stdpp Require Import base tactics option list numbers.

Set Default Proof Using "Type".
Local Open Scope Z_scope.

(** ** JavaScript values *)

Module JS.

(** A string is a list of UTF-16 code units. *)
Definition code_unit := N.
Definition jsstring := list code_unit.

(** An ASCII literal of the source text. *)
Definition lit (s : string) : jsstring :=
  List.map N_of_ascii (list_ascii_of_string s).

(** [String.prototype.startsWith] (position 0). *)
Definition startsWith (s search : jsstring) : bool :=
  bool_decide (take (length search) s = search).

(** [String.prototype.endsWith] (end position [s.length]). *)
Definition endsWith (s search : jsstring) : bool :=
  (length search <=? length s)%nat
  && bool_decide (drop (length s - length search) s = search).

(** Relative indices of [slice]: a negative index counts from the end,
    and the result is clamped to [0, len]. *)
Definition clamp_index (len : nat) (k : Z) : nat :=
  if k <? 0 then Z.to_nat (Z.max (Z.of_nat len + k) 0)
  else Nat.min (Z.to_nat k) len.

(** [String.prototype.slice(start, end)]. *)
Definition slice (s : jsstring) (start end_ : Z) : jsstring :=
  let from := clamp_index (length s) start in
  let to := clamp_index (length s) end_ in
  take (to - from) (drop from s).

(** White space and line terminators, as [String.prototype.trim]
    strips them. *)
Definition is_whitespace (c : code_unit) : bool :=
  match c with
  | 9 | 10 | 11 | 12 | 13 | 32 | 160 | 5760
  | 8192 | 8193 | 8194 | 8195 | 8196 | 8197 | 8198 | 8199 | 8200
  | 8201 | 8202 | 8232 | 8233 | 8239 | 8287 | 12288 | 65279 => true
  | _ => false
  end%N.

Fixpoint drop_while (p : code_unit → bool) (s : jsstring) : jsstring :=
  match s with
  | [] => []
  | c :: s' => if p c then drop_while p s' else s
  end.

(** [String.prototype.trim]. *)
Definition trim (s : jsstring) : jsstring :=
  reverse (drop_while is_whitespace (reverse (drop_while is_whitespace s))).

(** Truthiness of a string: only the empty string is falsy. *)
Definition truthy (s : jsstring) : bool :=
  match s with [] => false | _ => true end.

(** An [Error] object, identified by its message. *)
Record Error := mkError { message : string }.

(** A computation that either throws or returns. *)
Definition result (A : Type) : Type := Error + A.

(** Numbers. *)
Definition number := float.

(** [ToNumber] at an array read: a read past the end gives [undefined],
    which arithmetic converts to [NaN]. *)
Definition toNumber (v : option number) : number :=
  match v with
  | Some x => x
  | None => nan
  end.

(** [Array.prototype.reduce] with an initial value; the callback receives
    the accumulator, the element and its index. *)
Fixpoint reduce_from {A B : Type} (f : B → A → nat → B)
    (i : nat) (acc : B) (l : list A) : B :=
  match l with
  | [] => acc
  | val :: l' => reduce_from f (S i) (f acc val i) l'
  end.

Definition reduce {A B : Type} (f : B → A → nat → B) (init : B) (l : list A) : B :=
  reduce_from f 0 init l.

(** A counted loop [for (let i = 0; i < n; i++) body], whose body may
    throw ([None]). *)
Fixpoint for_from {St : Type} (i count : nat) (body : nat → St → option St)
    (s : St) : option St :=
  match count with
  | O => Some s
  | S k => s' ← body i s; for_from (S i) k body s'
  end.

Definition for_loop {St : Type} (n : nat) (body : nat → St → option St) (s : St)
    : option St :=
  for_from 0 n body s.

End JS.

Import JS.

(** ** The [Matrix] class of ml-matrix, as far as [corr.ts] uses it *)

Module MLMatrix.

(** A matrix keeps its shape and one [Float64Array] per row. *)
Record Matrix := mkMatrix {
  rows : nat;
  columns : nat;
  data : list (list number)
}.

(** [new Matrix(nRows, nColumns)]: zero-filled. *)
Definition new (nRows nColumns : nat) : Matrix :=
  mkMatrix nRows nColumns (replicate nRows (replicate nColumns 0%float)).

(** [matrix.set(i, j, v)] is [this.data[i][j] = v]: a missing row throws a
    [TypeError]; a typed array ignores a write past its end. *)
Definition set (m : Matrix) (i j : nat) (v : number) : option Matrix :=
  row ← data m !! i;
  Some (mkMatrix (rows m) (columns m) (<[i := <[j := v]> row]> (data m))).

(** [matrix.get(i, j)]. *)
Definition get (m : Matrix) (i j : nat) : option number :=
  row ← data m !! i; row !! j.

(** [matrix.to2DArray()] copies the cells into plain arrays, row by row. *)
Definition to2DArray (m : Matrix) : option (list (list number)) :=
  mapM (λ i, mapM (λ j, get m i j) (seq 0 (columns m))) (seq 0 (rows m)).

End MLMatrix.

(** ** The Node.js runtime seen by [corr.ts] *)

Module Node.

(** What a path names on disk. [existsSync] holds of directories and of
    files without read permission too; reading those throws. *)
Inductive fs_entry :=
  | Missing
  | Unreadable (e : Error)
  | File (contents : list N).

(** The [path] module, [String.prototype.toLowerCase], the base64
    encoding of a [Buffer] and the state of the file system. *)
Record Host := mkHost {
  path_resolve : jsstring → jsstring → jsstring;
  path_extname : jsstring → jsstring;
  path_dirname : jsstring → jsstring;
  toLowerCase : jsstring → jsstring;
  base64 : list N → jsstring;
  fs_entry_at : jsstring → fs_entry
}.

Definition ENOENT : Error := mkError "ENOENT: no such file or directory".

(** [fs.existsSync]. *)
Definition existsSync (h : Host) (p : jsstring) : bool :=
  match fs_entry_at h p with
  | Missing => false
  | _ => true
  end.

(** [fs.readFileSync]. *)
Definition readFileSync (h : Host) (p : jsstring) : result (list N) :=
  match fs_entry_at h p with
  | File contents => inr contents
  | Unreadable e => inl e
  | Missing => inl ENOENT
  end.

End Node.

(** ** [src/commands/corr.ts] *)

Module Corr.
Import Node.

Definition sumSquares (v : list number) : number :=
  reduce (λ sum val _, sum + val * val)%float 0%float v.

Definition cosineSimilarity (a b : list number) : number :=
  let dotProduct := reduce (λ sum val i, sum + val * toNumber (b !! i))%float 0%float a in
  let normA := PrimFloat.sqrt (sumSquares a) in
  let normB := PrimFloat.sqrt (sumSquares b) in
  (dotProduct / (normA * normB))%float.

Definition computeCorrelationMatrix (embeddings1 embeddings2 : list (list number))
    : option (list (list number)) :=
  let matrix := MLMatrix.new (length embeddings1) (length embeddings2) in
  matrix ← for_loop (length embeddings1) (λ i matrix,
              for_loop (length embeddings2) (λ j matrix,
                a ← embeddings1 !! i;
                b ← embeddings2 !! j;
                MLMatrix.set matrix i j (cosineSimilarity a b)) matrix) matrix;
  MLMatrix.to2DArray matrix.

Definition isImagePath (str : jsstring) : bool :=
  startsWith str (lit "data:image/") ||
  startsWith str (lit "http://") ||
  startsWith str (lit "https://") ||
  endsWith str (lit ".jpg") ||
  endsWith str (lit ".jpeg") ||
  endsWith str (lit ".png") ||
  endsWith str (lit ".gif") ||
  endsWith str (lit ".webp").

Definition resolveImagePath (h : Host) (filePath baseDir : jsstring) : result jsstring :=
  if startsWith filePath (lit "data:image/") || startsWith filePath (lit "http://")
     || startsWith filePath (lit "https://")
  then inr filePath
  else
    let fullPath := path_resolve h baseDir filePath in
    if existsSync h fullPath then
      let mimeType :=
        if bool_decide (toLowerCase h (path_extname h fullPath) = lit ".png")
        then lit "image/png" else lit "image/jpeg" in
      match readFileSync h fullPath with
      | inl e => inl e
      | inr imageBuffer =>
          inr (lit "data:" ++ mimeType ++ lit ";base64," ++ base64 h imageBuffer)
      end
    else inr filePath.

(** One record of the input file; of the fields of [EmbeddingOutput]
    the code reads these two. *)
Record EmbeddingOutput := mkEmbeddingOutput {
  embedding : list number;
  chunk : jsstring
}.

(** What the two streams of [loadEmbeddings] emit, in order. The file
    stream only reports errors: its data goes to the parser through
    [pipe], which does not forward errors. *)
Inductive stream_event :=
  | FileError (e : Error)
  | ParserData (obj : EmbeddingOutput)
  | ParserError (e : Error)
  | ParserEnd.

(** How a call of [loadEmbeddings] ends. [Unhandled] is an error that no
    code of [loadEmbeddings] receives: an ['error'] of the file stream,
    which has no listener, or an exception leaving the ['data']
    listener. [Pending] is a promise that is never settled. *)
Inductive outcome :=
  | Resolved (embeddings : list (list number)) (chunks : list jsstring)
  | Rejected (e : Error)
  | Unhandled (e : Error)
  | Pending.

(** The listeners, run on the events in order; the first event that
    settles the promise decides the outcome. *)
Fixpoint listen (h : Host) (baseDir : jsstring) (events : list stream_event)
    (embeddings : list (list number)) (chunks : list jsstring) : outcome :=
  match events with
  | [] => Pending
  | FileError e :: _ => Unhandled e
  | ParserData obj :: events =>
      let embeddings := embeddings ++ [embedding obj] in
      match (if isImagePath (chunk obj)
             then resolveImagePath h (chunk obj) baseDir
             else inr (chunk obj)) with
      | inl e => Unhandled e
      | inr chunk => listen h baseDir events embeddings (chunks ++ [chunk])
      end
  | ParserEnd :: _ => Resolved embeddings chunks
  | ParserError e :: _ => Rejected e
  end.

Definition loadEmbeddings (h : Host) (filePath model : jsstring)
    (events : list stream_event) : outcome :=
  let baseDir := path_dirname h filePath in
  listen h baseDir events [] [].

(** The image glyph U+1F5BC U+FE0F and the ellipsis U+2026. *)
Definition image_glyph : jsstring := [55357; 56764; 65039]%N.
Definition ellipsis : jsstring := [8230]%N.

Definition truncateLabel (text : jsstring) (maxLen : option Z) : jsstring :=
  let maxLen := default 32 maxLen in
  if isImagePath text then image_glyph
  else if Z.of_nat (length text) >? maxLen
       then slice text 0 maxLen ++ ellipsis
       else text.

End Corr.

Import Node Corr.

(** ** [src/utils/reader.ts] *)

Module Reader.

Record Usage := mkUsage { tokens : Z }.
Record ReadData := mkReadData {
  title : jsstring;
  url : jsstring;
  usage : option Usage
}.
Record ReadResponse := mkReadResponse { data : option ReadData }.

(** The request handed to [axiosClient.post]. *)
Record Request := mkRequest {
  endpoint : jsstring;
  body_url : jsstring;
  headers : list (string * jsstring);
  timeout : Z;
  responseType : string
}.

Inductive console_entry :=
  | ConsoleLog (title url : jsstring) (tokens : Z)
  | ConsoleError (text : string).

(** The effects of a call: the requests sent and the console output. *)
Record World := mkWorld {
  sent : list Request;
  console : list console_entry
}.

(** Computations that change the world and return or throw. *)
Definition M (A : Type) : Type := World → World * result A.

Definition ret {A} (a : A) : M A := λ w, (w, inr a).
Definition throw {A} (e : Error) : M A := λ w, (w, inl e).
Definition bind {A B} (m : M A) (k : A → M B) : M B :=
  λ w, match m w with
       | (w', inl e) => (w', inl e)
       | (w', inr a) => k a w'
       end.
Definition try_catch {A} (m : M A) (handler : Error → M A) : M A :=
  λ w, match m w with
       | (w', inl e) => handler e w'
       | (w', inr a) => (w', inr a)
       end.

Declare Scope reader_scope.
Delimit Scope reader_scope with reader.
Notation "x <- m ;; k" := (bind m (λ x, k))
  (at level 20, m at level 99, k at level 200, only parsing) : reader_scope.
Notation "m ;; k" := (bind m (λ _, k))
  (at level 100, k at level 200, only parsing, right associativity) : reader_scope.

Definition console_log (t u : jsstring) (n : Z) : M unit :=
  λ w, (mkWorld (sent w) (console w ++ [ConsoleLog t u n]), inr tt).
Definition console_error (text : string) : M unit :=
  λ w, (mkWorld (sent w) (console w ++ [ConsoleError text]), inr tt).

(** [axiosClient.post]: the request leaves, and the network answers with
    a body or a failure. *)
Definition post (network : Request → result ReadResponse) (req : Request)
    : M ReadResponse :=
  λ w, (mkWorld (sent w ++ [req]) (console w), network req).

(** [n || 0]. *)
Definition or_zero (n : option Z) : Z := default 0 n.

Definition readUrl (JINA_API_KEY : jsstring)
    (network : Request → result ReadResponse)
    (url : jsstring) (withAllLinks : option bool) : M ReadResponse :=
  (if negb (truthy (trim url)) then throw (mkError "URL cannot be empty")
   else
   if negb (startsWith url (lit "http://")) && negb (startsWith url (lit "https://"))
   then throw (mkError "Invalid URL, only http and https URLs are supported")
   else
   let headers :=
     [("Accept"%string, lit "application/json");
      ("Authorization"%string, lit "Bearer " ++ JINA_API_KEY);
      ("Content-Type"%string, lit "application/json");
      ("X-Retain-Images"%string, lit "none");
      ("X-Md-Link-Style"%string, lit "discarded")] in
   let headers :=
     if default false withAllLinks
     then headers ++ [("X-With-Links-Summary"%string, lit "all")]
     else headers in
   try_catch
     (data <- post network
                (mkRequest (lit "https://r.jina.ai/") url headers 60000 "json") ;;
      match Reader.data data with
      | None => throw (mkError "Invalid response data")
      | Some d =>
          console_log (title d) (Reader.url d) (or_zero (tokens <$> usage d)) ;;
          ret data
      end)
     (λ error,
        console_error ("Error reading URL: " ++ message error)%string ;;
        throw error))%reader.

(** The spec's error kind of the two validation failures. *)
Definition InvalidInput (e : Error) : Prop :=
  e = mkError "URL cannot be empty"
  ∨ e = mkError "Invalid URL, only http and https URLs are supported".

End Reader.

(** ** A small host for the examples *)

Module Demo.

Definition slash : code_unit := 47%N.
Definition dot : code_unit := 46%N.

(** [path.resolve] of a relative path without [.] or [..] segments
    against an absolute directory; an absolute path stands for itself. *)
Definition resolve (baseDir p : jsstring) : jsstring :=
  match p with
  | c :: _ => if (c =? slash)%N then p else baseDir ++ slash :: p
  | [] => baseDir
  end.

(** The part of [s] after the last [c], if [c] occurs. *)
Fixpoint after_last (c : code_unit) (s : jsstring) : option jsstring :=
  match s with
  | [] => None
  | x :: s' =>
      match after_last c s' with
      | Some t => Some t
      | None => if (x =? c)%N then Some s' else None
      end
  end.

Definition basename (p : jsstring) : jsstring :=
  default p (after_last slash p).

(** [path.extname]: from the last dot of the base name, unless the base
    name has no dot or only a leading one. *)
Definition extname (p : jsstring) : jsstring :=
  match basename p with
  | [] => []
  | _ :: name => match after_last dot name with
                 | Some ext => dot :: ext
                 | None => []
                 end
  end.

(** [path.dirname]: the path up to its last slash. *)
Definition dirname (p : jsstring) : jsstring :=
  match after_last slash p with
  | Some name => take (length p - length name - 1) p
  | None => [dot]
  end.

(** [toLowerCase] on the letters A to Z. *)
Definition lower (s : jsstring) : jsstring :=
  List.map (λ c, if (65 <=? c)%N && (c <=? 90)%N then (c + 32)%N else c) s.

Definition base64_digit (n : N) : code_unit :=
  (if n <? 26 then 65 + n
   else if n <? 52 then 97 + (n - 26)
   else if n <? 62 then 48 + (n - 52)
   else if n =? 62 then 43 else 47)%N.

(** Base64 with padding, three bytes to four digits. *)
Fixpoint base64 (bytes : list N) : jsstring :=
  match bytes with
  | [] => []
  | [a] =>
      [base64_digit (a / 4); base64_digit (a mod 4 * 16); 61; 61]%N
  | [a; b] =>
      [base64_digit (a / 4); base64_digit (a mod 4 * 16 + b / 16);
       base64_digit (b mod 16 * 4); 61]%N
  | a :: b :: c :: rest =>
      [base64_digit (a / 4); base64_digit (a mod 4 * 16 + b / 16);
       base64_digit (b mod 16 * 4 + c / 64); base64_digit (c mod 64)]%N
      ++ base64 rest
  end.

Definition EISDIR : Error := mkError "EISDIR: illegal operation on a directory, read".

(** The directory [/data] holds the picture [cat.png] (three bytes), the
    picture [dog.jpg] (one byte) and a directory named [scans.png]. *)
Definition disk (p : jsstring) : Node.fs_entry :=
  if bool_decide (p = lit "/data/cat.png") then Node.File [77; 97; 110]%N
  else if bool_decide (p = lit "/data/dog.jpg") then Node.File [255]%N
  else if bool_decide (p = lit "/data/scans.png") then Node.Unreadable EISDIR
  else Node.Missing.

Definition host : Node.Host :=
  Node.mkHost resolve extname dirname lower base64 disk.

Definition record (c : string) : Corr.EmbeddingOutput :=
  Corr.mkEmbeddingOutput [1; 0]%float (lit c).

End Demo.

(** ** [String.prototype.replace] with a string pattern *)

Module JSReplace.

(** [String.prototype.indexOf]: the position of the first occurrence. *)
Fixpoint indexOf_from (s search : jsstring) (i : nat) : option nat :=
  if startsWith s search then Some i
  else match s with
       | [] => None
       | _ :: s' => indexOf_from s' search (S i)
       end.

Definition indexOf (s search : jsstring) : option nat :=
  indexOf_from s search 0.

(** The substitution of the replacement patterns. With a string pattern
    there are no captures: [$$] is a dollar sign, [$&] the matched text,
    [$`] the text before the match, [$'] the text after it, and every
    other code unit stands for itself. *)
Fixpoint substitute (matched before after template : jsstring) : jsstring :=
  match template with
  | 36%N :: 36%N :: rest => 36%N :: substitute matched before after rest
  | 36%N :: 38%N :: rest => matched ++ substitute matched before after rest
  | 36%N :: 96%N :: rest => before ++ substitute matched before after rest
  | 36%N :: 39%N :: rest => after ++ substitute matched before after rest
  | c :: rest => c :: substitute matched before after rest
  | [] => []
  end.

(** [s.replace(search, replacement)] replaces the first occurrence. *)
Definition replace (s search replacement : jsstring) : jsstring :=
  match indexOf s search with
  | None => s
  | Some pos =>
      let before := take pos s in
      let after := drop (pos + length search) s in
      before ++ substitute search before after replacement ++ after
  end.

End JSReplace.

(** ** [corr.ts]: the page and the command *)

Module CorrPage.
Import JSReplace.

Record CorrelationData := mkCorrelationData {
  matrix : list (list number);
  rowLabels : list jsstring;
  colLabels : list jsstring;
  rowFull : list jsstring;
  colFull : list jsstring;
  rowFile : jsstring;
  colFile : jsstring
}.

(** What [generateHTML] asks of its surroundings: the directory of the
    module, [path.join], the text of a file read as UTF-8 and
    [JSON.stringify] on the payload. *)
Record PageHost := mkPageHost {
  module_dirname : jsstring;
  path_join : jsstring → jsstring → jsstring;
  readTextFileSync : jsstring → result jsstring;
  stringify : CorrelationData → jsstring
}.

Definition placeholder : jsstring := lit "{{ DATA }}".

Definition generateHTML (ph : PageHost) (data : CorrelationData) : result jsstring :=
  let templatePath :=
    path_join ph (module_dirname ph) (lit "../templates/correlation_d3.html") in
  match readTextFileSync ph templatePath with
  | inl e => inl e
  | inr template => inr (replace template placeholder (stringify ph data))
  end.

(** How [main] ends: it starts the server on the payload, or reports the
    message of a caught error and exits with a code; an error that
    [loadEmbeddings] does not handle is not caught here either, and a
    promise that is never settled leaves [main] waiting. *)
Inductive main_outcome :=
  | Serving (data : CorrelationData)
  | Exit (code : Z) (reported : string)
  | Uncaught (e : Error)
  | Waiting.

(** An optional argument that is given and not the empty string. *)
Definition given (arg : option jsstring) : option jsstring :=
  match arg with
  | Some f => if truthy f then Some f else None
  | None => None
  end.

(** [main], from the parsed arguments to the start of the server. The
    events are those of the streams of the first and of the second load;
    the standard output is returned with the outcome. *)
Definition main (h : Host) (path_basename : jsstring → jsstring)
    (file1 : jsstring) (file2 : option jsstring) (model : jsstring)
    (events1 events2 : list stream_event) : list string * main_outcome :=
  let stdout := ["Loading embeddings..."%string] in
  match loadEmbeddings h file1 model events1 with
  | Rejected e => (stdout, Exit 1 (message e))
  | Unhandled e => (stdout, Uncaught e)
  | Pending => (stdout, Waiting)
  | Resolved embeddings1 chunks1 =>
      match (match given file2 with
             | Some f => loadEmbeddings h f model events2
             | None => Resolved embeddings1 chunks1
             end) with
      | Rejected e => (stdout, Exit 1 (message e))
      | Unhandled e => (stdout, Uncaught e)
      | Pending => (stdout, Waiting)
      | Resolved embeddings2 chunks2 =>
          let stdout := stdout ++ ["Computing correlation matrix..."%string] in
          match computeCorrelationMatrix embeddings1 embeddings2 with
          | None => (stdout, Exit 1 "TypeError")
          | Some matrix =>
              let rowLabels := (λ c, truncateLabel c None) <$> chunks1 in
              let colLabels := (λ c, truncateLabel c None) <$> chunks2 in
              (stdout,
               Serving (mkCorrelationData matrix rowLabels colLabels
                          chunks1 chunks2
                          (path_basename file1)
                          (match given file2 with
                           | Some f => path_basename f
                           | None => path_basename file1
                           end)))
          end
      end
  end.

End CorrPage.

(** ** Loops and the matrix builder *)

Section Loops.
Context {St : Type}.

Lemma for_from_inv (P : nat → St → Prop) (body : nat → St → option St) count :
  ∀ i s, P i s →
    (∀ k s, (i ≤ k < i + count)%nat → P k s →
       ∃ s', body k s = Some s' ∧ P (S k) s') →
    ∃ s', for_from i count body s = Some s' ∧ P (i + count)%nat s'.
Proof.
  induction count as [|count IH]; intros i s HP Hstep; simpl.
  - exists s. by rewrite Nat.add_0_r.
  - destruct (Hstep i s) as (s1 & -> & HP1); [lia|done|]. simpl.
    destruct (IH (S i) s1) as (s2 & -> & HP2); [done| |].
    + intros k s0 ? ?. apply Hstep; [lia|done].
    + exists s2. split; [done|].
      by replace (i + S count)%nat with (S i + count)%nat by lia.
Qed.

Lemma for_loop_inv (P : nat → St → Prop) (body : nat → St → option St) n s :
  P 0%nat s →
  (∀ k s, (k < n)%nat → P k s → ∃ s', body k s = Some s' ∧ P (S k) s') →
  ∃ s', for_loop n body s = Some s' ∧ P n s'.
Proof.
  intros H0 Hstep. unfold for_loop.
  destruct (for_from_inv P body n 0%nat s H0) as (s' & ? & ?); [|by exists s'].
  intros k s0 ? ?. apply Hstep; [lia|done].
Qed.
End Loops.

Section MatrixBuilder.
Import MLMatrix.

Definition zero_row (n : nat) : list number := replicate n 0%float.

(** The inner loop fills row [i] from left to right. *)
Lemma inner_loop_fills_row (e1 e2 : list (list number)) i a r c D row0 :
  e1 !! i = Some a → D !! i = Some row0 → length row0 = length e2 →
  for_loop (length e2) (λ j matrix,
      a ← e1 !! i; b ← e2 !! j; set matrix i j (cosineSimilarity a b))
    (mkMatrix r c D)
  = Some (mkMatrix r c (<[i := cosineSimilarity a <$> e2]> D)).
Proof.
  intros Ha Hrow Hlen.
  pose proof (lookup_lt_Some _ _ _ Hrow) as Hi.
  destruct (for_loop_inv
    (λ j m, m = mkMatrix r c
       (<[i := (cosineSimilarity a <$> take j e2) ++ drop j row0]> D))
    (λ j matrix, a ← e1 !! i; b ← e2 !! j; set matrix i j (cosineSimilarity a b))
    (length e2) (mkMatrix r c D)) as (m & -> & ->).
  - simpl. rewrite drop_0. by rewrite list_insert_id.
  - intros j m Hj ->.
    destruct (lookup_lt_is_Some_2 e2 j Hj) as [b Hb].
    destruct (lookup_lt_is_Some_2 row0 j) as [x Hx]; [lia|].
    rewrite Ha, Hb. simpl. unfold set. simpl.
    rewrite list_lookup_insert_eq by done. simpl.
    eexists; split; [done|]. f_equal.
    rewrite list_insert_insert_eq. f_equal.
    rewrite insert_app_r_alt; rewrite length_fmap, length_take; [|lia].
    replace (j - j `min` length e2)%nat with 0%nat by lia.
    rewrite (drop_S _ _ _ Hx). simpl.
    rewrite (take_S_r _ _ _ Hb), fmap_app. simpl.
    by rewrite <- app_assoc.
  - f_equal. rewrite take_ge by lia. rewrite drop_ge by lia.
    by rewrite app_nil_r.
Qed.

(** The outer loop fills the rows from top to bottom. *)
Lemma loops_fill_matrix (e1 e2 : list (list number)) :
  for_loop (length e1) (λ i matrix,
      for_loop (length e2) (λ j matrix,
        a ← e1 !! i; b ← e2 !! j; set matrix i j (cosineSimilarity a b)) matrix)
    (new (length e1) (length e2))
  = Some (mkMatrix (length e1) (length e2)
            ((λ a, cosineSimilarity a <$> e2) <$> e1)).
Proof.
  set (n1 := length e1). set (n2 := length e2).
  destruct (for_loop_inv
    (λ i m, m = mkMatrix n1 n2
       (((λ a, cosineSimilarity a <$> e2) <$> take i e1)
          ++ replicate (n1 - i) (zero_row n2)))
    (λ i matrix, for_loop n2 (λ j matrix,
        a ← e1 !! i; b ← e2 !! j; set matrix i j (cosineSimilarity a b)) matrix)
    n1 (new n1 n2)) as (m & -> & ->).
  - simpl. by rewrite Nat.sub_0_r.
  - intros i m Hi ->.
    destruct (lookup_lt_is_Some_2 e1 i Hi) as [a Ha].
    eexists; split.
    + subst n2. apply inner_loop_fills_row with (row0 := zero_row (length e2)).
      * done.
      * rewrite lookup_app_r; rewrite length_fmap, length_take; [|lia].
        apply lookup_replicate_2. lia.
      * apply length_replicate.
    + f_equal.
      rewrite insert_app_r_alt; rewrite length_fmap, length_take; [|lia].
      replace (i - i `min` length e1)%nat with 0%nat by lia.
      replace (n1 - i)%nat with (S (n1 - S i)) by lia. simpl.
      rewrite (take_S_r _ _ _ Ha), fmap_app. simpl.
      by rewrite <- app_assoc.
  - f_equal. rewrite take_ge by lia. rewrite Nat.sub_diag. simpl.
    by rewrite app_nil_r.
Qed.

(** Copying a well-shaped matrix returns its rows. *)
Lemma to2DArray_data m :
  length (data m) = rows m →
  Forall (λ row, length row = columns m) (data m) →
  to2DArray m = Some (data m).
Proof.
  intros Hrows Hcols. unfold to2DArray.
  apply mapM_Some_2, Forall2_same_length_lookup_2.
  { by rewrite length_seq. }
  intros i i' row [-> Hi]%lookup_seq Hrow. simpl in *.
  apply mapM_Some_2, Forall2_same_length_lookup_2.
  { rewrite length_seq. symmetry.
    by apply (proj1 (Forall_lookup _ _) Hcols i). }
  intros j j' x [-> Hj]%lookup_seq Hx. simpl.
  unfold get. by rewrite Hrow.
Qed.

Lemma computeCorrelationMatrix_eq (V1 V2 : list (list number)) :
  computeCorrelationMatrix V1 V2
  = Some ((λ a, cosineSimilarity a <$> V2) <$> V1).
Proof.
  unfold computeCorrelationMatrix.
  rewrite loops_fill_matrix. simpl.
  apply to2DArray_data; simpl.
  - by rewrite length_fmap.
  - apply Forall_fmap, Forall_forall. intros a _. simpl.
    by rewrite length_fmap.
Qed.
End MatrixBuilder.

(** C1. For all vector lists [V1] and [V2], [computeCorrelationMatrix]
    returns (it does not throw) an array of [length V1] rows, each of
    length [length V2], whose cell [i][j] is
    [cosineSimilarity (V1[i]) (V2[j])] for every index pair in range and
    absent outside of it; nothing is assumed of the vectors or of the
    lists, which may be empty. *)
Theorem computeCorrelationMatrix_dense (V1 V2 : list (list number)) :
  ∃ M, computeCorrelationMatrix V1 V2 = Some M
    ∧ length M = length V1
    ∧ Forall (λ row, length row = length V2) M
    ∧ ∀ i j, (row ← M !! i; row !! j)
             = (a ← V1 !! i; b ← V2 !! j; Some (cosineSimilarity a b)).
Proof.
  eexists. split; [apply computeCorrelationMatrix_eq|].
  split; [by rewrite length_fmap|]. split.
  - apply Forall_fmap, Forall_forall. intros a _. simpl. by rewrite length_fmap.
  - intros i j. rewrite list_lookup_fmap.
    destruct (V1 !! i) as [a|]; simpl; [|done].
    rewrite list_lookup_fmap. by destruct (V2 !! j).
Qed.

(** The matrix of the vectors [1,0], [0,1] and [1,1] against
    themselves. *)
Example computeCorrelationMatrix_3x3 :
  computeCorrelationMatrix [[1; 0]; [0; 1]; [1; 1]]%float
    [[1; 0]; [0; 1]; [1; 1]]%float
  = Some [[1; 0; 0x1.6a09e667f3bccp-1];
          [0; 1; 0x1.6a09e667f3bccp-1];
          [0x1.6a09e667f3bccp-1; 0x1.6a09e667f3bccp-1; 0x1.ffffffffffffep-1]]%float.
Proof. by vm_compute. Qed.

Example computeCorrelationMatrix_empty :
  computeCorrelationMatrix [] [[1; 0]]%float = Some []
  ∧ computeCorrelationMatrix [[1; 0]; [0; 1]]%float [] = Some [[]; []].
Proof. by vm_compute. Qed.

(** ** Strings *)

Section Strings.
Implicit Types s p : jsstring.

Lemma startsWith_prefix s p : startsWith s p = true ↔ p `prefix_of` s.
Proof.
  unfold startsWith. rewrite bool_decide_eq_true. split.
  - intros H. exists (drop (length p) s).
    rewrite <- (take_drop (length p) s) at 1. by rewrite H.
  - intros [k ->]. by rewrite take_app_length.
Qed.

Lemma endsWith_suffix s p : endsWith s p = true ↔ p `suffix_of` s.
Proof.
  unfold endsWith. rewrite andb_true_iff, Nat.leb_le, bool_decide_eq_true. split.
  - intros [_ H]. exists (take (length s - length p) s).
    rewrite <- (take_drop (length s - length p) s) at 1. by rewrite H.
  - intros [k ->]. rewrite length_app. split; [lia|].
    replace (length k + length p - length p)%nat with (length k) by lia.
    by rewrite drop_app_length.
Qed.

Lemma slice_prefix s (n : nat) : slice s 0 (Z.of_nat n) = take n s.
Proof.
  unfold slice, clamp_index.
  destruct (Z.ltb_spec 0 0) as [?|_]; [lia|].
  destruct (Z.ltb_spec (Z.of_nat n) 0) as [?|_]; [lia|].
  rewrite Nat2Z.id. simpl. rewrite Nat.sub_0_r.
  destruct (Nat.le_ge_cases n (length s)).
  - by rewrite Nat.min_l.
  - rewrite Nat.min_r by done. by rewrite !take_ge.
Qed.

Lemma drop_while_all (f : code_unit → bool) s :
  Forall (λ c, f c = true) s → drop_while f s = [].
Proof. induction 1 as [|c s Hc _ IH]; simpl; [done|]. by rewrite Hc. Qed.

Lemma trim_whitespace_only s :
  Forall (λ c, is_whitespace c = true) s → trim s = [].
Proof. intros H. unfold trim. by rewrite (drop_while_all _ _ H). Qed.
End Strings.

(** The classification of a chunk as an image reference, in the words of
    the specification. *)
Definition ImageReference (text : jsstring) : Prop :=
  lit "data:image/" `prefix_of` text ∨ lit "http://" `prefix_of` text
  ∨ lit "https://" `prefix_of` text
  ∨ lit ".jpg" `suffix_of` text ∨ lit ".jpeg" `suffix_of` text
  ∨ lit ".png" `suffix_of` text ∨ lit ".gif" `suffix_of` text
  ∨ lit ".webp" `suffix_of` text.

(** A chunk that needs no resolution: a data URI of an image or an
    absolute http(s) URL. *)
Definition SelfContained (text : jsstring) : Prop :=
  lit "data:image/" `prefix_of` text ∨ lit "http://" `prefix_of` text
  ∨ lit "https://" `prefix_of` text.

Lemma isImagePath_spec text : isImagePath text = true ↔ ImageReference text.
Proof.
  unfold isImagePath, ImageReference.
  rewrite !orb_true_iff, !startsWith_prefix, !endsWith_suffix. tauto.
Qed.

Lemma isImagePath_false text : isImagePath text = false ↔ ¬ ImageReference text.
Proof. rewrite <- isImagePath_spec. by destruct (isImagePath text). Qed.

Lemma self_contained_test text :
  startsWith text (lit "data:image/") || startsWith text (lit "http://")
    || startsWith text (lit "https://") = true
  ↔ SelfContained text.
Proof.
  unfold SelfContained. rewrite !orb_true_iff, !startsWith_prefix. tauto.
Qed.

(** ** Labels *)

(** C8. For every string [text] and every bound [maxLen] (a length, 32
    when the argument is left out), [truncateLabel] returns the image glyph
    when [text] is an image reference (it starts with [data:image/],
    [http://] or [https://], or ends, compared code unit by code unit, with
    [.jpg], [.jpeg], [.png], [.gif] or [.webp]); otherwise it returns [text]
    itself when its length is at most [maxLen], and its first [maxLen]
    code units followed by the ellipsis when it is longer. *)
Theorem truncateLabel_spec (text : jsstring) (maxLen : nat) :
  truncateLabel text None = truncateLabel text (Some 32)
  ∧ (ImageReference text →
       truncateLabel text (Some (Z.of_nat maxLen)) = image_glyph)
  ∧ (¬ ImageReference text → (length text ≤ maxLen)%nat →
       truncateLabel text (Some (Z.of_nat maxLen)) = text)
  ∧ (¬ ImageReference text → (maxLen < length text)%nat →
       truncateLabel text (Some (Z.of_nat maxLen)) = take maxLen text ++ ellipsis).
Proof.
  split; [done|]. unfold truncateLabel. simpl. split; [|split].
  - intros H%isImagePath_spec. by rewrite H.
  - intros H%isImagePath_false Hlen. rewrite H.
    destruct (Z.gtb_spec (Z.of_nat (length text)) (Z.of_nat maxLen)); [lia|done].
  - intros H%isImagePath_false Hlen. rewrite H.
    destruct (Z.gtb_spec (Z.of_nat (length text)) (Z.of_nat maxLen)); [|lia].
    by rewrite slice_prefix.
Qed.

(** The three labels of the specification's examples: a URL, forty
    letters, ten letters. *)
Example truncateLabel_examples :
  truncateLabel (lit "https://example.com/x.png") None = image_glyph
  ∧ truncateLabel (lit "abcdefghijklmnopqrstuvwxyzabcdefghijklmn") None
    = lit "abcdefghijklmnopqrstuvwxyzabcdef" ++ ellipsis
  ∧ truncateLabel (lit "abcdefghij") None = lit "abcdefghij".
Proof. by vm_compute. Qed.

(** ** The URL reader *)

(** C7. For every [url] that is empty or made of white space only, or
    that starts neither with [http://] nor with [https://], [readUrl]
    throws one of its two validation errors and leaves the world as it
    found it: no request is sent and nothing is logged, whatever the
    network would have answered. *)
Theorem readUrl_invalid_input key network (url : jsstring) flag w :
  Forall (λ c, is_whitespace c = true) url
  ∨ ¬ (lit "http://" `prefix_of` url ∨ lit "https://" `prefix_of` url) →
  ∃ e, Reader.readUrl key network url flag w = (w, inl e) ∧ Reader.InvalidInput e.
Proof.
  intros H. unfold Reader.readUrl.
  destruct (truthy (trim url)) eqn:Htrim; simpl.
  - destruct H as [H|H].
    { by rewrite (trim_whitespace_only _ H) in Htrim. }
    destruct (startsWith url (lit "http://")) eqn:H1.
    { destruct H. left. by apply startsWith_prefix. }
    destruct (startsWith url (lit "https://")) eqn:H2.
    { destruct H. right. by apply startsWith_prefix. }
    simpl. eexists. split; [done|]. by right.
  - eexists. split; [done|]. by left.
Qed.

Lemma readUrl_invalid_input_witness :
  ∃ e, Reader.readUrl (lit "secret") (λ _, inr (Reader.mkReadResponse None))
         (lit "ftp://x") None (Reader.mkWorld [] [])
       = (Reader.mkWorld [] [], inl e)
     ∧ Reader.InvalidInput e.
Proof.
  apply readUrl_invalid_input. right.
  apply (bool_decide_unpack _). by vm_compute.
Defined.

(** A well-formed URL does reach the network. *)
Example readUrl_sends_request :
  Reader.sent (fst (Reader.readUrl (lit "secret") (λ _, inr (Reader.mkReadResponse None))
                      (lit "https://x") None (Reader.mkWorld [] [])))
  = [Reader.mkRequest (lit "https://r.jina.ai/") (lit "https://x")
       [("Accept"%string, lit "application/json");
        ("Authorization"%string, lit "Bearer secret");
        ("Content-Type"%string, lit "application/json");
        ("X-Retain-Images"%string, lit "none");
        ("X-Md-Link-Style"%string, lit "discarded")] 60000 "json"].
Proof. by vm_compute. Qed.

(** ** Image references *)

(** The chunk kept for a record: the conditional of the ['data']
    listener. *)
Definition ingest (h : Host) (baseDir c : jsstring) : result jsstring :=
  if isImagePath c then resolveImagePath h c baseDir else inr c.

(** The data URI written for the file at [fullPath]. *)
Definition dataURI (h : Host) (fullPath : jsstring) (bytes : list N) : jsstring :=
  lit "data:"
  ++ (if bool_decide (toLowerCase h (path_extname h fullPath) = lit ".png")
      then lit "image/png" else lit "image/jpeg")
  ++ lit ";base64," ++ base64 h bytes.

(** What ingestion makes of a chunk [c], given the disk. *)
Definition Ingested (h : Host) (baseDir c out : jsstring) : Prop :=
  (¬ ImageReference c → out = c)
  ∧ (SelfContained c → out = c)
  ∧ (ImageReference c → ¬ SelfContained c →
       match fs_entry_at h (path_resolve h baseDir c) with
       | File bytes => out = dataURI h (path_resolve h baseDir c) bytes
       | Missing => out = c
       | Unreadable _ => False
       end).

(** Reading the asset of [c], when there is one to read, does not throw. *)
Definition AssetReadable (h : Host) (baseDir c : jsstring) : Prop :=
  ImageReference c → ¬ SelfContained c →
  ∀ e, fs_entry_at h (path_resolve h baseDir c) ≠ Unreadable e.

Lemma dataURI_self_contained h fullPath bytes :
  startsWith (dataURI h fullPath bytes) (lit "data:image/") = true.
Proof.
  apply startsWith_prefix. unfold dataURI. case_bool_decide.
  - by exists (lit "png" ++ lit ";base64," ++ base64 h bytes).
  - by exists (lit "jpeg" ++ lit ";base64," ++ base64 h bytes).
Qed.

Lemma resolveImagePath_cases h c d :
  resolveImagePath h c d
  = if startsWith c (lit "data:image/") || startsWith c (lit "http://")
       || startsWith c (lit "https://")
    then inr c
    else match fs_entry_at h (path_resolve h d c) with
         | Missing => inr c
         | Unreadable e => inl e
         | File bytes => inr (dataURI h (path_resolve h d c) bytes)
         end.
Proof.
  unfold resolveImagePath, existsSync, readFileSync, dataURI.
  by destruct (fs_entry_at h (path_resolve h d c)).
Qed.

(** Its output is the input or a data URI of an image. *)
Lemma resolveImagePath_output h s d r :
  resolveImagePath h s d = inr r →
  r = s ∨ lit "data:image/" `prefix_of` r.
Proof.
  rewrite resolveImagePath_cases.
  destruct (_ || _); [by intros [= <-]; left|].
  destruct (fs_entry_at h (path_resolve h d s)); intros [= <-]; [by left|].
  right. apply startsWith_prefix, dataURI_self_contained.
Qed.

(** C10. With the file system fixed, resolving the result of
    [resolveImagePath] again changes nothing: for every string [s] and
    base directory [d], running [resolveImagePath] on [s] and then on its
    result behaves as running it once (it returns the same string, or
    throws the same error when the first run throws); for what it returns
    is [s] itself or a string that starts with [data:image/]. *)
Theorem resolveImagePath_idempotent (h : Host) (s d : jsstring) :
  match resolveImagePath h s d with
  | inl e => inl e
  | inr r => resolveImagePath h r d
  end = resolveImagePath h s d
  ∧ match resolveImagePath h s d with
    | inl _ => True
    | inr r => r = s ∨ lit "data:image/" `prefix_of` r
    end.
Proof.
  split.
  - rewrite (resolveImagePath_cases h s d).
    destruct (startsWith s (lit "data:image/") || startsWith s (lit "http://")
              || startsWith s (lit "https://")) eqn:Hs.
    + by rewrite resolveImagePath_cases, Hs.
    + destruct (fs_entry_at h (path_resolve h d s)) as [|e|bytes] eqn:Hfs.
      * by rewrite resolveImagePath_cases, Hs, Hfs.
      * done.
      * by rewrite resolveImagePath_cases, dataURI_self_contained.
  - destruct (resolveImagePath h s d) as [e|r] eqn:Hr; [done|].
    by apply (resolveImagePath_output h s d).
Qed.

Example resolveImagePath_twice :
  resolveImagePath Demo.host (lit "cat.png") (lit "/data")
    = inr (lit "data:image/png;base64,TWFu")
  ∧ resolveImagePath Demo.host (lit "data:image/png;base64,TWFu") (lit "/data")
    = inr (lit "data:image/png;base64,TWFu").
Proof. by vm_compute. Qed.

(** ** Ingestion *)

Lemma ingest_readable h d c :
  AssetReadable h d c → ∃ out, ingest h d c = inr out ∧ Ingested h d c out.
Proof.
  intros Hread. unfold ingest, Ingested.
  destruct (isImagePath c) eqn:Hc.
  - apply isImagePath_spec in Hc. rewrite resolveImagePath_cases.
    destruct (startsWith c (lit "data:image/") || startsWith c (lit "http://")
              || startsWith c (lit "https://")) eqn:Hs.
    + apply self_contained_test in Hs. exists c. naive_solver.
    + assert (¬ SelfContained c) as Hn.
      { intros H%self_contained_test. congruence. }
      specialize (Hread Hc Hn).
      destruct (fs_entry_at h (path_resolve h d c)) as [|e|bytes] eqn:Hfs.
      * exists c. naive_solver.
      * by destruct (Hread e).
      * eexists. split; [done|]. naive_solver.
  - apply isImagePath_false in Hc. exists c. split; [done|].
    split; [done|]. split; [|done].
    intros Hs. destruct Hc. unfold ImageReference, SelfContained in *. tauto.
Qed.

Lemma listen_records h d recs outs rest embs chunks :
  Forall2 (λ r out, ingest h d (chunk r) = inr out) recs outs →
  listen h d ((ParserData <$> recs) ++ rest) embs chunks
  = listen h d rest (embs ++ (embedding <$> recs)) (chunks ++ outs).
Proof.
  intros H. revert embs chunks.
  induction H as [|r out recs outs Hr _ IH]; intros embs chunks; simpl.
  - by rewrite !app_nil_r.
  - unfold ingest in Hr. rewrite Hr, IH. by rewrite <- !app_assoc.
Qed.

Lemma ingest_all h d recs :
  Forall (λ r, AssetReadable h d (chunk r)) recs →
  ∃ outs, Forall2 (λ r out, ingest h d (chunk r) = inr out) recs outs
        ∧ Forall2 (λ r out, Ingested h d (chunk r) out) recs outs.
Proof.
  induction 1 as [|r recs Hr _ (outs & IH1 & IH2)].
  - exists []. by split.
  - destruct (ingest_readable _ _ _ Hr) as (out & ? & ?).
    exists (out :: outs). by split; constructor.
Qed.

(** Whatever the streams emit, the two sequences handed to [resolve] have
    the same length. *)
Lemma listen_equal_length h d events embs chunks embs' chunks' :
  listen h d events embs chunks = Resolved embs' chunks' →
  length embs = length chunks → length embs' = length chunks'.
Proof.
  revert embs chunks.
  induction events as [|ev events IH]; intros embs chunks; simpl; [done|].
  destruct ev as [e|obj|e|]; try done.
  - destruct (if isImagePath (chunk obj) then _ else _) as [e|out]; [done|].
    intros H Hlen. apply (IH _ _ H). rewrite !length_app. simpl. lia.
  - by intros [= <- <-].
Qed.




(** C9. During the ingestion of a file whose image assets can be read,
    every chunk that is not an image reference, and every chunk that is a
    data URI of an image or an http(s) URL, is kept unchanged; every other
    image reference is resolved against the directory of the input file
    and, when a file is there, replaced by the data URI of its bytes in
    base64, with MIME type [image/png] when the lower-cased extension of
    the resolved path is [.png] and [image/jpeg] otherwise; when no file
    is there the chunk is kept unchanged. *)
Theorem ingestion_rewrites_chunks (h : Host) (filePath model : jsstring)
    (recs : list EmbeddingOutput) :
  Forall (λ r, AssetReadable h (path_dirname h filePath) (chunk r)) recs →
  ∃ chunks,
    loadEmbeddings h filePath model ((ParserData <$> recs) ++ [ParserEnd])
      = Resolved (embedding <$> recs) chunks
    ∧ Forall2 (λ r out, Ingested h (path_dirname h filePath) (chunk r) out)
        recs chunks.
Proof.
  intros (outs & Hing & Hspec)%ingest_all. exists outs.
  unfold loadEmbeddings. by rewrite (listen_records _ _ _ _ _ _ _ Hing).
Qed.

Lemma ingestion_rewrites_chunks_witness :
  ∃ chunks,
    loadEmbeddings Demo.host (lit "/data/in.jsonl") (lit "jina-embeddings-v3")
      ((ParserData <$> [Demo.record "cat.png"; Demo.record "dog.jpg";
                        Demo.record "https://example.com/x.png";
                        Demo.record "plain text"]) ++ [ParserEnd])
      = Resolved (embedding <$> [Demo.record "cat.png"; Demo.record "dog.jpg";
                                 Demo.record "https://example.com/x.png";
                                 Demo.record "plain text"]) chunks
    ∧ Forall2 (λ r out, Ingested Demo.host
                 (path_dirname Demo.host (lit "/data/in.jsonl")) (chunk r) out)
        [Demo.record "cat.png"; Demo.record "dog.jpg";
         Demo.record "https://example.com/x.png"; Demo.record "plain text"]
        chunks.
Proof.
  apply ingestion_rewrites_chunks.
  repeat constructor; intros _ _ e; by vm_compute.
Defined.

Example ingestion_example :
  loadEmbeddings Demo.host (lit "/data/in.jsonl") (lit "jina-embeddings-v3")
    [ParserData (Demo.record "cat.png"); ParserData (Demo.record "dog.jpg");
     ParserData (Demo.record "https://example.com/x.png");
     ParserData (Demo.record "plain text"); ParserEnd]
  = Resolved [[1; 0]; [1; 0]; [1; 0]; [1; 0]]%float
      [lit "data:image/png;base64,TWFu"; lit "data:image/jpeg;base64,/w==";
       lit "https://example.com/x.png"; lit "plain text"].
Proof. by vm_compute. Qed.

(** An image reference to a file that is not on disk is not rewritten. *)
Lemma ingestion_keeps_missing_asset :
  isImagePath (lit "missing.png") = true
  ∧ startsWith (lit "missing.png") (lit "data:") = false
  ∧ startsWith (lit "missing.png") (lit "http://") = false
  ∧ startsWith (lit "missing.png") (lit "https://") = false
  ∧ loadEmbeddings Demo.host (lit "/data/in.jsonl") (lit "jina-embeddings-v3")
      [ParserData (Demo.record "missing.png"); ParserEnd]
    = Resolved [[1; 0]%float] [lit "missing.png"].
Proof. by vm_compute. Qed.

(** ** Failures of ingestion *)

(** A resolved promise carries every record the parser emitted before the
    end of the stream: there was no error on the way. *)
Lemma listen_resolved_complete h d events embs0 chunks0 embs chunks :
  listen h d events embs0 chunks0 = Resolved embs chunks →
  ∃ recs outs rest,
    events = (ParserData <$> recs) ++ ParserEnd :: rest
    ∧ embs = embs0 ++ (embedding <$> recs)
    ∧ chunks = chunks0 ++ outs
    ∧ Forall2 (λ r out, ingest h d (chunk r) = inr out) recs outs.
Proof.
  revert embs0 chunks0.
  induction events as [|ev events IH]; intros embs0 chunks0; simpl; [done|].
  destruct ev as [e|obj|e|]; try done.
  - destruct (if isImagePath (chunk obj) then _ else _) as [e|out] eqn:Hobj;
      [done|].
    intros (recs & outs & rest & -> & -> & -> & Hall)%IH.
    exists (obj :: recs), (out :: outs), rest.
    rewrite <- !app_assoc. repeat split; try done. by constructor.
  - intros [= <- <-]. exists [], [], events. by rewrite !app_nil_r.
Qed.




(** An error of the file stream reaches no listener of [loadEmbeddings]. *)
Example loadEmbeddings_file_error :
  loadEmbeddings Demo.host (lit "/data/absent.jsonl") (lit "jina-embeddings-v3")
    [FileError ENOENT]
  = Unhandled ENOENT.
Proof. done. Qed.

(** ** Floating-point facts used by the similarity *)

Section Floats.
Implicit Types x y : float.

Lemma SFmul_comm (sx sy : spec_float) :
  SFmul prec emax sx sy = SFmul prec emax sy sx.
Proof.
  destruct sx as [s1|s1| |s1 m1 e1], sy as [s2|s2| |s2 m2 e2]; simpl;
    rewrite ?(xorb_comm s1 s2); try reflexivity.
  by rewrite (Pos.mul_comm m1 m2), (Z.add_comm e1 e2).
Qed.

Lemma mul_comm x y : (x * y)%float = (y * x)%float.
Proof.
  apply Prim2SF_inj. rewrite !mul_spec. apply SFmul_comm.
Qed.

Lemma mul_nan_r x : (x * nan)%float = nan.
Proof.
  apply Prim2SF_inj. rewrite mul_spec.
  change (Prim2SF nan) with S754_nan. by destruct (Prim2SF x).
Qed.

Lemma add_nan_r x : (x + nan)%float = nan.
Proof.
  apply Prim2SF_inj. rewrite add_spec.
  change (Prim2SF nan) with S754_nan. by destruct (Prim2SF x).
Qed.

Lemma add_nan_l x : (nan + x)%float = nan.
Proof.
  apply Prim2SF_inj. rewrite add_spec.
  change (Prim2SF nan) with S754_nan. by destruct (Prim2SF x).
Qed.

Lemma div_nan_l x : (nan / x)%float = nan.
Proof.
  apply Prim2SF_inj. rewrite div_spec.
  change (Prim2SF nan) with S754_nan. by destruct (Prim2SF x).
Qed.
End Floats.

(** ** The dot product of [cosineSimilarity] *)

(** The dot product as the source computes it: over the indices of [a],
    reading [b] at each of them. *)
Definition dotProduct (a b : list number) : number :=
  reduce (λ sum val i, sum + val * toNumber (b !! i))%float 0%float a.

Lemma cosineSimilarity_unfold a b :
  cosineSimilarity a b
  = (dotProduct a b
     / (PrimFloat.sqrt (sumSquares a) * PrimFloat.sqrt (sumSquares b)))%float.
Proof. done. Qed.

Section DotProduct.
Implicit Types a b : list number.

(** Once the sum is [NaN] it stays [NaN]. *)
Lemma reduce_from_nan b a k :
  reduce_from (λ sum val i, sum + val * toNumber (b !! i))%float k nan a = nan.
Proof.
  revert k. induction a as [|x a IH]; intros k; simpl; [done|].
  by rewrite add_nan_l.
Qed.

(** Reading [b] past its end turns the sum into [NaN]. *)
Lemma reduce_from_past_end b a k acc :
  (k ≤ length b < k + length a)%nat →
  reduce_from (λ sum val i, sum + val * toNumber (b !! i))%float k acc a = nan.
Proof.
  revert k acc. induction a as [|x a IH]; intros k acc Hlen; simpl in *.
  - lia.
  - destruct (b !! k) as [y|] eqn:Hy.
    + apply IH. apply lookup_lt_Some in Hy. lia.
    + simpl. by rewrite mul_nan_r, add_nan_r, reduce_from_nan.
Qed.

Lemma dotProduct_longer a b :
  (length b < length a)%nat → dotProduct a b = nan.
Proof. intros H. apply reduce_from_past_end. lia. Qed.

(** Within [b], only the first [length a] entries of [b] are read. *)
Lemma reduce_from_take b a k acc :
  reduce_from (λ sum val i, sum + val * toNumber (b !! i))%float k acc a
  = reduce_from (λ sum val i, sum + val * toNumber (take (k + length a) b !! i))%float
      k acc a.
Proof.
  revert k acc. induction a as [|x a IH]; intros k acc; simpl; [done|].
  rewrite lookup_take_lt by lia. rewrite IH.
  by replace (S k + length a)%nat with (k + S (length a))%nat by lia.
Qed.

(** The two products run over the same pairs when the lengths agree. *)
Lemma reduce_from_swap a : ∀ b pa pb k acc,
  length a = length b → length pa = k → length pb = k →
  reduce_from (λ sum val i, sum + val * toNumber ((pb ++ b) !! i))%float k acc a
  = reduce_from (λ sum val i, sum + val * toNumber ((pa ++ a) !! i))%float k acc b.
Proof.
  induction a as [|x a IH]; intros [|y b] pa pb k acc Hlen Hpa Hpb; simpl in *;
    try done.
  rewrite !list_lookup_middle by done. simpl. rewrite (mul_comm y x).
  specialize (IH b (pa ++ [x]) (pb ++ [y]) (S k) (acc + x * y)%float).
  rewrite <- !app_assoc in IH. simpl in IH.
  apply IH; [lia| |]; rewrite length_app; simpl; lia.
Qed.

Lemma dotProduct_comm a b :
  length a = length b → dotProduct a b = dotProduct b a.
Proof. intros H. by apply (reduce_from_swap a b [] []). Qed.

(** The dot product of a vector with itself is its squared norm. *)
Lemma reduce_from_self a : ∀ pa acc,
  reduce_from (λ sum val i, sum + val * toNumber ((pa ++ a) !! i))%float
    (length pa) acc a
  = reduce_from (λ sum val _, sum + val * val)%float (length pa) acc a.
Proof.
  induction a as [|x a IH]; intros pa acc; simpl; [done|].
  rewrite list_lookup_middle by done. simpl.
  specialize (IH (pa ++ [x]) (acc + x * x)%float).
  rewrite length_app, <- app_assoc in IH. simpl in IH.
  by rewrite Nat.add_1_r in IH.
Qed.

Lemma dotProduct_self a : dotProduct a a = sumSquares a.
Proof. apply (reduce_from_self a []). Qed.
End DotProduct.

Lemma cosineSimilarity_comm (a b : list number) :
  length a = length b → cosineSimilarity a b = cosineSimilarity b a.
Proof.
  intros H. rewrite !cosineSimilarity_unfold.
  by rewrite (dotProduct_comm a b H), (mul_comm (PrimFloat.sqrt (sumSquares a))).
Qed.

Lemma cosineSimilarity_longer (a b : list number) :
  (length b < length a)%nat → cosineSimilarity a b = nan.
Proof.
  intros H. by rewrite cosineSimilarity_unfold, dotProduct_longer, div_nan_l.
Qed.

(** ** Vectors of unequal length *)

(** The similarity in the words of the specification for vectors of
    unequal length: the dot product summed over the indices of the shorter
    vector, each norm over all entries of its vector. *)
Definition cosineSimilarity_over_shorter (a b : list number) : number :=
  let n := Nat.min (length a) (length b) in
  (dotProduct (take n a) (take n b)
   / (PrimFloat.sqrt (sumSquares a) * PrimFloat.sqrt (sumSquares b)))%float.

(** C2. [cosineSimilarity] checks no dimension and never throws: it is a
    total function to numbers. Its dot product runs over the indices of
    its first argument [a]. When [a] is not the longer vector, these are
    the indices of the shorter vector: the entries of [b] past the length
    of [a] are left out of the dot product (and counted in the norm of
    [b]). When [a] is the longer vector, [b] is read past its end and the
    result is [NaN]. *)
Theorem cosineSimilarity_unequal_lengths (a b : list number) :
  ((length a ≤ length b)%nat →
     cosineSimilarity a b = cosineSimilarity_over_shorter a b)
  ∧ ((length b < length a)%nat → cosineSimilarity a b = nan).
Proof.
  split; [|apply cosineSimilarity_longer].
  intros H. unfold cosineSimilarity_over_shorter.
  rewrite Nat.min_l by done. rewrite (take_ge a) by done.
  rewrite cosineSimilarity_unfold. f_equal.
  apply (reduce_from_take b a 0).
Qed.

Lemma cosineSimilarity_unequal_lengths_witness :
  cosineSimilarity [1]%float [3; 4]%float
    = cosineSimilarity_over_shorter [1]%float [3; 4]%float
  ∧ cosineSimilarity [3; 4]%float [1]%float = nan.
Proof.
  split.
  - apply (cosineSimilarity_unequal_lengths [1]%float [3; 4]%float). simpl. lia.
  - apply (cosineSimilarity_unequal_lengths [3; 4]%float [1]%float). simpl. lia.
Defined.

Example cosineSimilarity_shorter_first :
  cosineSimilarity [1]%float [1; 1; 1; 1]%float = 0.5%float.
Proof. by vm_compute. Qed.

(** With the longer vector first the result is [NaN], which no sum over
    the indices of the shorter vector gives here. *)
Lemma cosineSimilarity_longer_first_nan :
  cosineSimilarity [1; 1]%float [1]%float = nan
  ∧ is_nan (cosineSimilarity_over_shorter [1; 1]%float [1]%float) = false
  ∧ cosineSimilarity [1; 1]%float [1]%float
    ≠ cosineSimilarity_over_shorter [1; 1]%float [1]%float.
Proof.
  split; [by vm_compute|]. split; [by vm_compute|].
  intros H. apply (f_equal is_nan) in H. by vm_compute in H.
Qed.

(** ** Symmetry *)

Lemma matrix_cell (V1 V2 : list (list number)) i j :
  (row ← ((λ a, cosineSimilarity a <$> V2) <$> V1) !! i; row !! j)
  = (a ← V1 !! i; b ← V2 !! j; Some (cosineSimilarity a b)).
Proof.
  rewrite list_lookup_fmap.
  destruct (V1 !! i) as [a|]; simpl; [|done].
  rewrite list_lookup_fmap. by destruct (V2 !! j).
Qed.

(** C4. For all vectors [a] and [b] of equal length,
    [cosineSimilarity a b] and [cosineSimilarity b a] are the same number
    (both [NaN] when the similarity is undefined); and for every vector
    list [V] whose vectors all have one length, the matrix of [V] against
    itself holds the same number in cell [i][j] and in cell [j][i]. *)
Theorem similarity_symmetric :
  (∀ a b : list number,
     length a = length b → cosineSimilarity a b = cosineSimilarity b a)
  ∧ (∀ (V : list (list number)) (n : nat),
       Forall (λ v, length v = n) V →
       ∃ M, computeCorrelationMatrix V V = Some M
          ∧ ∀ i j, (row ← M !! i; row !! j) = (row ← M !! j; row !! i)).
Proof.
  split; [apply cosineSimilarity_comm|].
  intros V n Hn. eexists. split; [apply computeCorrelationMatrix_eq|].
  intros i j. rewrite !matrix_cell.
  destruct (V !! i) as [a|] eqn:Ha, (V !! j) as [b|] eqn:Hb; simpl; try done.
  f_equal. apply cosineSimilarity_comm.
  rewrite Forall_lookup in Hn. by rewrite (Hn _ _ Ha), (Hn _ _ Hb).
Qed.

Lemma similarity_symmetric_witness :
  cosineSimilarity [1; 0]%float [1; 1]%float
    = cosineSimilarity [1; 1]%float [1; 0]%float
  ∧ ∃ M, computeCorrelationMatrix [[1; 0]; [0; 1]; [1; 1]]%float
           [[1; 0]; [0; 1]; [1; 1]]%float = Some M
       ∧ ∀ i j, (row ← M !! i; row !! j) = (row ← M !! j; row !! i).
Proof.
  split.
  - by apply (proj1 similarity_symmetric).
  - apply (proj2 similarity_symmetric _ 2%nat). by repeat constructor.
Defined.

(** A list with vectors of two lengths: cell [0][1] is a number and cell
    [1][0] is [NaN]. *)
Lemma ragged_matrix_not_symmetric :
  ∃ M x y,
    computeCorrelationMatrix [[1]; [1; 1]]%float [[1]; [1; 1]]%float = Some M
    ∧ (row ← M !! 0%nat; row !! 1%nat) = Some x
    ∧ (row ← M !! 1%nat; row !! 0%nat) = Some y
    ∧ is_nan x = false ∧ is_nan y = true ∧ x ≠ y.
Proof.
  eexists _, _, _. split; [by vm_compute|].
  split; [done|]. split; [done|]. split; [by vm_compute|].
  split; [by vm_compute|].
  intros H. apply (f_equal is_nan) in H. by vm_compute in H.
Qed.

(** ** Rounding of binary64 operations

    The accuracy of [sqrt], [*] and [/] on normal doubles, read off their
    specification in [SpecFloat]: the result of each is a double within
    one unit in the last place of the exact value. *)

(** Powers of two, and the value of a finite double with mantissa [m]
    and exponent [e]. *)
Definition bpow (e : Z) : R := powerRZ 2 e.
Definition F2R (m : positive) (e : Z) : R := (IZR (Zpos m) * bpow e)%R.

(** One unit in the last place of a normalised mantissa, relative to it. *)
Definition rel_ulp : R := (/ IZR (2 ^ 52))%R.

(** The range of squared norms for which the self-similarity is bounded
    below: from 2^-1000 to 2^1000. *)
Definition range_lo : float := 0x1p-1000%float.
Definition range_hi : float := 0x1p+1000%float.

(** Within 2^-49 of one: between 1 - 2^-49 and 1 + 2^-49, compared as
    doubles. *)
Definition close_to_one (x : float) : bool :=
  (0x1.ffffffffffff0p-1 <=? x)%float && (x <=? 0x1.0000000000008p+0)%float.

Section Digits.

(** [digits2_pos m] is the number of binary digits of [m]. *)
Lemma digits2_pos_bounds (m : positive) :
  2 ^ (Zpos (digits2_pos m) - 1) ≤ Zpos m < 2 ^ Zpos (digits2_pos m).
Proof.
  induction m as [m IH|m IH|]; simpl digits2_pos; [| |by compute].
  - rewrite Pos2Z.inj_succ.
    replace (Z.succ (Zpos (digits2_pos m)) - 1)
      with (Z.succ (Zpos (digits2_pos m) - 1)) by lia.
    rewrite !Z.pow_succ_r by lia. lia.
  - rewrite Pos2Z.inj_succ.
    replace (Z.succ (Zpos (digits2_pos m)) - 1)
      with (Z.succ (Zpos (digits2_pos m) - 1)) by lia.
    rewrite !Z.pow_succ_r by lia. lia.
Qed.

Lemma digits2_pos_unique (m : positive) (k : Z) :
  2 ^ (k - 1) ≤ Zpos m < 2 ^ k → Zpos (digits2_pos m) = k.
Proof.
  intros [Hlo Hhi]. pose proof (digits2_pos_bounds m) as [Hlo' Hhi'].
  set (d := Zpos (digits2_pos m)) in *.
  destruct (Z.lt_trichotomy d k) as [Hlt|[Heq|Hgt]]; [|done|].
  - assert (2 ^ d ≤ 2 ^ (k - 1)) by (apply Z.pow_le_mono_r; lia). lia.
  - assert (0 ≤ k ∨ k < 0) as [Hk|Hk] by lia.
    + assert (2 ^ k ≤ 2 ^ (d - 1)) by (apply Z.pow_le_mono_r; lia). lia.
    + rewrite (Z.pow_neg_r 2 k) in Hhi by done. lia.
Qed.

Lemma iter_pos_iter {A : Type} (f : A → A) (n : positive) :
  ∀ x, SpecFloat.iter_pos f n x = Pos.iter f x n.
Proof.
  induction n as [n IH|n IH|]; intros x; simpl; [|by rewrite !IH|done].
  by rewrite !IH, <- !Pos.iter_swap.
Qed.

Lemma shr_m_shr_1 (mrs : shr_record) :
  0 ≤ shr_m mrs → shr_m (shr_1 mrs) = shr_m mrs / 2.
Proof.
  destruct mrs as [m r s]. simpl. rewrite <- Z.div2_div.
  by destruct m as [|[p|p|]|p].
Qed.

(** Shifting right [p] times divides the mantissa by 2^p. *)
Lemma shr_m_iter (p : positive) (mrs : shr_record) :
  0 ≤ shr_m mrs →
  shr_m (SpecFloat.iter_pos shr_1 p mrs) = shr_m mrs / 2 ^ Zpos p.
Proof.
  intros Hm. rewrite iter_pos_iter.
  apply (Pos.iter_ind _ shr_1 mrs
           (λ p r, shr_m r = shr_m mrs / 2 ^ Zpos p ∧ 0 ≤ shr_m r)).
  - rewrite shr_m_shr_1 by done. split; [done|]. apply Z.div_pos; lia.
  - intros q r [Hr Hpos]. rewrite shr_m_shr_1 by done.
    split; [|apply Z.div_pos; lia].
    rewrite Hr, Pos2Z.inj_succ, Z.pow_succ_r by lia.
    rewrite Z.div_div by lia. f_equal. lia.
Qed.

End Digits.

Section Powers.

Lemma bpow_pos e : (0 < bpow e)%R.
Proof. apply powerRZ_lt. lra. Qed.

Lemma bpow_add a b : bpow (a + b) = (bpow a * bpow b)%R.
Proof. apply powerRZ_add. lra. Qed.

Lemma bpow_succ a : bpow (a + 1) = (2 * bpow a)%R.
Proof. rewrite bpow_add. unfold bpow at 2. simpl. lra. Qed.

Lemma bpow_IZR (n : Z) : 0 ≤ n → bpow n = IZR (2 ^ n).
Proof.
  intros Hn. unfold bpow. rewrite <- (Z2Nat.id n) by done.
  rewrite <- pow_powerRZ, <- pow_IZR. done.
Qed.

Lemma bpow_neg (n : Z) : 0 ≤ n → bpow (- n) = (/ IZR (2 ^ n))%R.
Proof.
  intros Hn. assert (0 < IZR (2 ^ n))%R as Hpos.
  { apply IZR_lt. apply Z.pow_pos_nonneg; lia. }
  apply (Rmult_eq_reg_r (IZR (2 ^ n))); [|lra].
  rewrite <- (bpow_IZR n) by done. rewrite <- bpow_add.
  replace (- n + n) with 0 by lia. rewrite Rinv_l; [done|].
  rewrite bpow_IZR by done. lra.
Qed.

Lemma bpow_Zneg (p : positive) : bpow (Zneg p) = (/ IZR (2 ^ Zpos p))%R.
Proof. apply (bpow_neg (Zpos p)). lia. Qed.

End Powers.

(** Replaces [bpow] of a negative literal in [H] by a rational constant. *)
Ltac bpow_literal H :=
  rewrite bpow_Zneg in H;
  match type of H with
  | context [(2 ^ Zpos ?k)%Z] =>
      let v := eval vm_compute in (2 ^ Zpos k)%Z in
      change (2 ^ Zpos k)%Z with v in H
  end.

(** *** The generic rounding step *)

Section Rounding.

(** The exponent of a normal double with [e] digits above the binary point. *)
Lemma fexp_normal e : -1074 ≤ e - 53 → fexp prec emax e = e - 53.
Proof. unfold fexp, SpecFloat.emin, prec, emax. lia. Qed.

(** The shift that brings a mantissa to its canonical exponent keeps its
    leading digits. *)
Lemma shr_fexp_crude (m : positive) (e : Z) (l : location) (n : Z) :
  fexp prec emax (Zpos (digits2_pos m) + e) - e = n → 0 ≤ n →
  ∃ r, shr_fexp prec emax (Zpos m) e l = (r, e + n)
     ∧ shr_m r = Zpos m / 2 ^ n.
Proof.
  intros Hn Hpos. unfold shr_fexp. simpl Zdigits2. rewrite Hn. unfold shr.
  destruct n as [|p|p]; [| |lia].
  - eexists. split; [by rewrite Z.add_0_r|].
    rewrite Z.pow_0_r, Z.div_1_r. by destruct l as [|[]].
  - eexists. split; [done|].
    rewrite shr_m_iter; destruct l as [|[]]; simpl; done || lia.
Qed.

Lemma round_nearest_even_cases m l :
  round_nearest_even m l = m ∨ round_nearest_even m l = m + 1.
Proof. destruct l as [|[]]; simpl; try destruct (Z.even m); auto. Qed.

(** Rounding a mantissa of at least 53 digits in the normal range gives a
    finite double with a normalised mantissa, whose value is the
    truncation of the mantissa to 53 digits or the next double above it. *)
Lemma binary_round_aux_crude (mx : positive) (ex : Z) (l : location) :
  let d := Zpos (digits2_pos mx) in
  53 ≤ d → -1074 ≤ d + ex - 53 → d + ex ≤ 1023 →
  ∃ (mf : positive) (ef m2 : Z),
    binary_round_aux prec emax false (Zpos mx) ex l = S754_finite false mf ef
    ∧ 2 ^ 52 ≤ Zpos mf < 2 ^ 53
    ∧ ex + (d - 53) ≤ ef ≤ ex + (d - 53) + 1
    ∧ (m2 = Zpos mx / 2 ^ (d - 53) ∨ m2 = Zpos mx / 2 ^ (d - 53) + 1)
    ∧ 2 ^ 52 ≤ Zpos mx / 2 ^ (d - 53) < 2 ^ 53
    ∧ F2R mf ef = (IZR m2 * bpow (ex + (d - 53)))%R.
Proof.
  intros d Hd Hlo Hhi. unfold binary_round_aux.
  destruct (shr_fexp_crude mx ex l (d - 53)) as (r1 & -> & Hm1); [|lia|].
  { fold d. rewrite fexp_normal by lia. lia. }
  set (e1 := ex + (d - 53)).
  set (m1 := Zpos mx / 2 ^ (d - 53)) in *.
  assert (2 ^ 52 ≤ m1 < 2 ^ 53) as Hm1b.
  { pose proof (digits2_pos_bounds mx) as [Hl Hu]. fold d in Hl, Hu.
    assert (2 ^ (d - 1) = 2 ^ 52 * 2 ^ (d - 53)) as El
      by (rewrite <- Z.pow_add_r by lia; f_equal; lia).
    assert (2 ^ d = 2 ^ 53 * 2 ^ (d - 53)) as Eu
      by (rewrite <- Z.pow_add_r by lia; f_equal; lia).
    rewrite El in Hl. rewrite Eu in Hu.
    assert (0 < 2 ^ (d - 53)) by (apply Z.pow_pos_nonneg; lia).
    subst m1. split.
    - apply Z.div_le_lower_bound; lia.
    - apply Z.div_lt_upper_bound; lia. }
  rewrite Hm1.
  set (m2 := round_nearest_even m1 (loc_of_shr_record r1)).
  assert (m2 = m1 ∨ m2 = m1 + 1) as Hm2 by apply round_nearest_even_cases.
  assert (m2 < 2 ^ 53 ∨ m2 = 2 ^ 53) as [Hsmall|Hbig] by lia.
  - destruct m2 as [|p2|p2] eqn:Ep2; try lia.
    destruct (shr_fexp_crude p2 e1 loc_Exact 0) as (r2 & -> & Hr2); [|lia|].
    { rewrite (digits2_pos_unique p2 53) by lia.
      rewrite fexp_normal by (unfold e1; lia). lia. }
    rewrite Z.pow_0_r, Z.div_1_r in Hr2. rewrite Hr2.
    replace (e1 + 0 <=? emax - prec) with true
      by (symmetry; apply Z.leb_le; unfold emax, prec, e1; lia).
    exists p2, (e1 + 0), (Zpos p2).
    split; [done|]. split; [lia|]. split; [unfold e1; lia|].
    split; [lia|]. split; [done|].
    unfold F2R. by rewrite Z.add_0_r.
  - destruct m2 as [|p2|p2] eqn:Ep2; try lia.
    destruct (shr_fexp_crude p2 e1 loc_Exact 1) as (r2 & -> & Hr2); [|lia|].
    { rewrite (digits2_pos_unique p2 54) by lia.
      rewrite fexp_normal by (unfold e1; lia). lia. }
    rewrite Hbig in Hr2. change (2 ^ 53 / 2 ^ 1) with (Zpos (2 ^ 52)) in Hr2.
    rewrite Hr2.
    replace (e1 + 1 <=? emax - prec) with true
      by (symmetry; apply Z.leb_le; unfold emax, prec, e1; lia).
    exists (2 ^ 52)%positive, (e1 + 1), (Zpos p2).
    split; [done|]. split; [done|]. split; [unfold e1; lia|].
    split; [lia|]. split; [done|].
    unfold F2R. rewrite bpow_succ, Hbig.
    change (2 ^ 53) with (2 * Zpos (2 ^ 52)). rewrite mult_IZR. lra.
Qed.

Lemma div_pow2_bounds (a n : Z) :
  0 ≤ n → a / 2 ^ n * 2 ^ n ≤ a < (a / 2 ^ n + 1) * 2 ^ n.
Proof.
  intros Hn. assert (0 < 2 ^ n) as Hpow by (apply Z.pow_pos_nonneg; lia).
  pose proof (Z.mul_div_le a (2 ^ n) Hpow) as H1.
  pose proof (Z.mul_succ_div_gt a (2 ^ n) Hpow) as H2.
  generalize dependent (a / 2 ^ n). generalize dependent (2 ^ n). intros. lia.
Qed.


(** Hence the rounded value [F] of any real [x] that the mantissa and its
    successor enclose satisfies [F (1 - rel_ulp) <= x <= F (1 + rel_ulp)]. *)
Lemma binary_round_aux_rel (mx : positive) (ex : Z) (l : location) (x : R) :
  let d := Zpos (digits2_pos mx) in
  53 ≤ d → -1074 ≤ d + ex - 53 → d + ex ≤ 1023 →
  (IZR (Zpos mx) * bpow ex <= x <= (IZR (Zpos mx) + 1) * bpow ex)%R →
  ∃ (mf : positive) (ef : Z),
    binary_round_aux prec emax false (Zpos mx) ex l = S754_finite false mf ef
    ∧ 2 ^ 52 ≤ Zpos mf < 2 ^ 53
    ∧ ex + (d - 53) ≤ ef ≤ ex + (d - 53) + 1
    ∧ (F2R mf ef * (1 - rel_ulp) <= x <= F2R mf ef * (1 + rel_ulp))%R.
Proof.
  intros d Hd Hlo Hhi Hx.
  destruct (binary_round_aux_crude mx ex l Hd Hlo Hhi)
    as (mf & ef & m2 & Hres & Hmf & Hef & Hm2 & Hq & HF).
  fold d in Hef, Hm2, Hq, HF.
  exists mf, ef. split; [done|]. split; [done|]. split; [done|].
  set (n := d - 53) in *. set (q := Zpos mx / 2 ^ n) in *.
  set (B := bpow (ex + n)) in *.
  assert (0 ≤ n) as Hn by (unfold n; lia).
  assert (q * 2 ^ n ≤ Zpos mx < (q + 1) * 2 ^ n) as [Hq1 Hq2]
    by (by apply div_pow2_bounds).
  assert (B = bpow ex * IZR (2 ^ n))%R as HB
    by (unfold B; rewrite bpow_add, (bpow_IZR n) by done; done).
  pose proof (bpow_pos ex) as Hex.
  assert (IZR q * B <= x <= (IZR q + 1) * B)%R as [Hx1 Hx2].
  { rewrite HB. apply IZR_le in Hq1. rewrite mult_IZR in Hq1.
    assert (Zpos mx + 1 ≤ (q + 1) * 2 ^ n) as Hq3 by lia.
    apply IZR_le in Hq3. rewrite plus_IZR, mult_IZR, plus_IZR in Hq3.
    split; nra. }
  assert (0 < B)%R as HBpos by apply bpow_pos.
  assert (IZR (2 ^ 52) * B <= F2R mf ef)%R as HFlow.
  { rewrite HF. assert (2 ^ 52 ≤ m2) as H52 by lia. apply IZR_le in H52. nra. }
  assert (B <= F2R mf ef * rel_ulp)%R as HBu.
  { unfold rel_ulp. assert (0 < IZR (2 ^ 52))%R by (apply IZR_lt; lia).
    apply (Rmult_le_reg_l (IZR (2 ^ 52))); [done|].
    rewrite <- Rmult_assoc, (Rmult_comm _ (F2R mf ef)), Rmult_assoc.
    rewrite Rinv_r by lra. lra. }
  assert (F2R mf ef = IZR q * B ∨ F2R mf ef = (IZR q + 1) * B)%R as [HFq|HFq].
  { rewrite HF. destruct Hm2 as [->| ->]; [by left|right]. by rewrite plus_IZR. }
  - split; nra.
  - split; nra.
Qed.

End Rounding.

(** *** The three operations *)

Section Operations.

Lemma digits_53_bounds (m : positive) :
  Zpos (digits2_pos m) = 53 → 2 ^ 52 ≤ Zpos m < 2 ^ 53.
Proof. intros H. pose proof (digits2_pos_bounds m) as Hb. by rewrite H in Hb. Qed.

Lemma F2R_pos m e : (0 < F2R m e)%R.
Proof.
  unfold F2R. apply Rmult_lt_0_compat; [|apply bpow_pos].
  apply IZR_lt. lia.
Qed.

(** The product of two normal doubles. *)
Lemma SFmul_rel (m1 m2 : positive) (e1 e2 : Z) :
  Zpos (digits2_pos m1) = 53 → Zpos (digits2_pos m2) = 53 →
  -1126 ≤ e1 + e2 ≤ 917 →
  ∃ (mf : positive) (ef : Z),
    SFmul prec emax (S754_finite false m1 e1) (S754_finite false m2 e2)
      = S754_finite false mf ef
    ∧ 2 ^ 52 ≤ Zpos mf < 2 ^ 53
    ∧ e1 + e2 + 52 ≤ ef ≤ e1 + e2 + 54
    ∧ (F2R mf ef * (1 - rel_ulp) <= F2R m1 e1 * F2R m2 e2 <= F2R mf ef * (1 + rel_ulp))%R.
Proof.
  intros H1%digits_53_bounds H2%digits_53_bounds He. simpl SFmul.
  assert (2 ^ 104 ≤ Zpos (m1 * m2) < 2 ^ 106) as Hprod.
  { rewrite Pos2Z.inj_mul.
    change (2 ^ 104) with (2 ^ 52 * 2 ^ 52). change (2 ^ 106) with (2 ^ 53 * 2 ^ 53).
    split; [apply Z.mul_le_mono_nonneg|apply Z.mul_lt_mono_nonneg]; lia. }
  assert (Zpos (digits2_pos (m1 * m2)) = 105 ∨ Zpos (digits2_pos (m1 * m2)) = 106)
    as Hd.
  { destruct (Z.lt_ge_cases (Zpos (m1 * m2)) (2 ^ 105)).
    - left. apply digits2_pos_unique. change (105 - 1) with 104. lia.
    - right. apply digits2_pos_unique. change (106 - 1) with 105. lia. }
  destruct (binary_round_aux_rel (m1 * m2) (e1 + e2) loc_Exact
              (F2R m1 e1 * F2R m2 e2)) as (mf & ef & Hres & Hmf & Hef & Hx);
    try lia.
  { unfold F2R. rewrite Pos2Z.inj_mul, mult_IZR, bpow_add.
    pose proof (bpow_pos e1). pose proof (bpow_pos e2).
    assert (0 < bpow e1 * bpow e2)%R by (by apply Rmult_lt_0_compat).
    set (P := (IZR (Zpos m1) * IZR (Zpos m2))%R).
    replace (IZR (Zpos m1) * bpow e1 * (IZR (Zpos m2) * bpow e2))%R
      with (P * (bpow e1 * bpow e2))%R by (unfold P; ring).
    split; nra. }
  exists mf, ef. split; [done|]. split; [done|]. split; [lia|done].
Qed.

Lemma sq_le_inv (a x : R) : (0 <= a → 0 <= x → a * a <= x * x → a <= x)%R.
Proof. intros Ha Hx H. destruct (Rle_lt_dec a x); [done|]. nra. Qed.

Lemma bpow_double e : bpow (2 * e) = (bpow e * bpow e)%R.
Proof. replace (2 * e) with (e + e) by lia. apply bpow_add. Qed.

(** The square root of a normal double: [x] is the exact root. *)
Lemma SFsqrt_rel (m : positive) (e : Z) (x : R) :
  Zpos (digits2_pos m) = 53 → -1074 ≤ e ≤ 971 →
  (0 <= x)%R → (x * x = F2R m e)%R →
  ∃ (mf : positive) (ef : Z),
    SFsqrt prec emax (S754_finite false m e) = S754_finite false mf ef
    ∧ 2 ^ 52 ≤ Zpos mf < 2 ^ 53
    ∧ e - 53 ≤ 2 * ef ≤ e - 50
    ∧ (F2R mf ef * (1 - rel_ulp) <= x <= F2R mf ef * (1 + rel_ulp))%R.
Proof.
  intros Hd He Hx0 Hxx. pose proof (digits_53_bounds m Hd) as Hm.
  unfold SFsqrt, SFsqrt_core_binary. simpl Zdigits2. rewrite Hd.
  rewrite !Z.div2_div.
  set (e' := Z.min (fexp prec emax ((53 + e + 1) / 2)) (e / 2)).
  assert (e' = (e + 54) / 2 - 53) as He'.
  { unfold e'. rewrite fexp_normal by (Z.div_mod_to_equations; lia).
    replace (53 + e + 1) with (e + 54) by lia. Z.div_mod_to_equations. lia. }
  assert (e - 2 * e' = 52 ∨ e - 2 * e' = 53) as Hs
    by (rewrite He'; Z.div_mod_to_equations; lia).
  set (s := e - 2 * e') in *.
  set (m' := match s with Z0 => Zpos m | Zpos _ => Z.shiftl (Zpos m) s | Zneg _ => 0 end).
  assert (m' = Zpos m * 2 ^ s) as Hm'.
  { unfold m'. destruct s; try lia. apply Z.shiftl_mul_pow2. lia. }
  assert (2 ^ 104 ≤ m' < 2 ^ 106) as Hm'b.
  { rewrite Hm'. destruct Hs as [-> | ->].
    - change (2 ^ 104) with (2 ^ 52 * 2 ^ 52).
      change (2 ^ 106) with (2 ^ 54 * 2 ^ 52). lia.
    - change (2 ^ 104) with (2 ^ 51 * 2 ^ 53).
      change (2 ^ 106) with (2 ^ 53 * 2 ^ 53). lia. }
  pose proof (Z.sqrtrem_spec m') as Hsq.
  destruct (Z.sqrtrem m') as [q r]. destruct Hsq as [Hq Hr]; [lia|].
  assert (2 ^ 52 ≤ q < 2 ^ 53) as Hqb.
  { change (2 ^ 104) with (2 ^ 52 * 2 ^ 52) in Hm'b.
    change (2 ^ 106) with (2 ^ 53 * 2 ^ 53) in Hm'b.
    generalize dependent (2 ^ 52). generalize dependent (2 ^ 53). intros. nia. }
  destruct q as [|pq|pq]; try lia.
  assert (Zpos (digits2_pos pq) = 53) as Hdq
    by (apply digits2_pos_unique; change (53 - 1) with 52; lia).
  destruct (binary_round_aux_rel pq e'
              (if (r =? 0) then loc_Exact
               else loc_Inexact (if (r <=? Zpos pq) then Lt else Gt)) x)
    as (mf & ef & Hres & Hmf & Hef & Hxb); rewrite ?Hdq; try lia.
  { assert (x * x = IZR m' * (bpow e' * bpow e'))%R as Hxm.
    { rewrite Hxx. unfold F2R. rewrite Hm', mult_IZR.
      replace e with (s + 2 * e') at 1 by (unfold s; lia).
      rewrite bpow_add, bpow_double, (bpow_IZR s) by lia. ring. }
    pose proof (bpow_pos e') as Hb.
    assert (IZR (Zpos pq) * IZR (Zpos pq) <= IZR m')%R as Hlow.
    { rewrite <- mult_IZR. apply IZR_le. lia. }
    assert (IZR m' <= (IZR (Zpos pq) + 1) * (IZR (Zpos pq) + 1))%R as Hup.
    { rewrite <- plus_IZR, <- mult_IZR. apply IZR_le. lia. }
    assert (0 < IZR (Zpos pq))%R by (apply IZR_lt; lia).
    split.
    - apply sq_le_inv; [nra|done|]. rewrite Hxm. nra.
    - apply sq_le_inv; [done|nra|]. rewrite Hxm. nra. }
  exists mf, ef. split; [done|]. split; [done|]. split; [lia|done].
Qed.

Lemma quotient_bounds (P m1 m2 q r : Z) :
  0 < P → P ≤ m1 < 2 * P → P ≤ m2 < 2 * P →
  m1 * (2 * P) = m2 * q + r → 0 ≤ r < m2 →
  P ≤ q < 4 * P.
Proof.
  intros HP H1 H2 Hq Hr. split.
  - destruct (Z.lt_ge_cases q P) as [Hlt|]; [|done].
    assert (m2 * (q + 1) ≤ m2 * P) by (apply Z.mul_le_mono_nonneg_l; lia).
    assert (m2 * P < 2 * P * P) by (apply Z.mul_lt_mono_pos_r; lia).
    assert (P * (2 * P) ≤ m1 * (2 * P)) by (apply Z.mul_le_mono_nonneg_r; lia).
    lia.
  - destruct (Z.lt_ge_cases q (4 * P)) as [|Hge]; [done|].
    assert (m2 * (4 * P) ≤ m2 * q) by (apply Z.mul_le_mono_nonneg_l; lia).
    assert (P * (4 * P) ≤ m2 * (4 * P)) by (apply Z.mul_le_mono_nonneg_r; lia).
    assert (m1 * (2 * P) < 2 * P * (2 * P)) by (apply Z.mul_lt_mono_pos_r; lia).
    lia.
Qed.

(** The quotient of two normal doubles: [x] is the exact quotient. *)
Lemma SFdiv_rel (m1 m2 : positive) (e1 e2 : Z) (x : R) :
  Zpos (digits2_pos m1) = 53 → Zpos (digits2_pos m2) = 53 →
  -1020 ≤ e1 - e2 ≤ 1020 →
  (x * F2R m2 e2 = F2R m1 e1)%R →
  ∃ (mf : positive) (ef : Z),
    SFdiv prec emax (S754_finite false m1 e1) (S754_finite false m2 e2)
      = S754_finite false mf ef
    ∧ 2 ^ 52 ≤ Zpos mf < 2 ^ 53
    ∧ e1 - e2 - 53 ≤ ef ≤ e1 - e2 - 51
    ∧ (F2R mf ef * (1 - rel_ulp) <= x <= F2R mf ef * (1 + rel_ulp))%R.
Proof.
  intros Hd1 Hd2 He Hx.
  pose proof (digits_53_bounds m1 Hd1) as Hm1.
  pose proof (digits_53_bounds m2 Hd2) as Hm2.
  unfold SFdiv, SFdiv_core_binary. simpl Zdigits2. rewrite Hd1, Hd2.
  set (e' := Z.min (fexp prec emax (53 + e1 - (53 + e2))) (e1 - e2)).
  assert (e' = e1 - e2 - 53) as He'.
  { unfold e'. rewrite fexp_normal by lia. lia. }
  replace (e1 - e2 - e') with 53 by lia.
  rewrite Z.shiftl_mul_pow2 by lia.
  pose proof (Z_div_mod (Zpos m1 * 2 ^ 53) (Zpos m2)) as Hdiv.
  destruct (Z.div_eucl (Zpos m1 * 2 ^ 53) (Zpos m2)) as [q r].
  destruct Hdiv as [Hq Hr]; [lia|].
  assert (2 ^ 52 ≤ q < 2 ^ 54) as Hqb.
  { change (2 ^ 54) with (4 * 2 ^ 52).
    by apply (quotient_bounds (2 ^ 52) (Zpos m1) (Zpos m2) q r). }
  destruct q as [|pq|pq]; try lia.
  assert (Zpos (digits2_pos pq) = 53 ∨ Zpos (digits2_pos pq) = 54) as Hdq.
  { destruct (Z.lt_ge_cases (Zpos pq) (2 ^ 53)).
    - left. apply digits2_pos_unique. change (53 - 1) with 52. lia.
    - right. apply digits2_pos_unique. change (54 - 1) with 53. lia. }
  destruct (binary_round_aux_rel pq e' (new_location (Zpos m2) r) x)
    as (mf & ef & Hres & Hmf & Hef & Hxb); try lia.
  { pose proof (bpow_pos e') as Hb. pose proof (bpow_pos e2) as Hb2.
    assert (x * IZR (Zpos m2) = IZR (Zpos m1 * 2 ^ 53) * bpow e')%R as Hxm.
    { apply (Rmult_eq_reg_r (bpow e2)); [|lra].
      unfold F2R in Hx. rewrite Rmult_assoc, Hx, mult_IZR.
      replace e1 with (53 + e' + e2) at 1 by lia.
      rewrite !bpow_add, (bpow_IZR 53) by lia. ring. }
    assert (0 < IZR (Zpos m2))%R as Hm2pos by (apply IZR_lt; lia).
    assert (IZR (Zpos pq) * IZR (Zpos m2) <= IZR (Zpos m1 * 2 ^ 53))%R as Hlow.
    { rewrite <- mult_IZR. apply IZR_le. lia. }
    assert (IZR (Zpos m1 * 2 ^ 53) <= (IZR (Zpos pq) + 1) * IZR (Zpos m2))%R as Hup.
    { rewrite <- plus_IZR, <- mult_IZR. apply IZR_le. lia. }
    split.
    - apply (Rmult_le_reg_r (IZR (Zpos m2))); [done|]. rewrite Hxm. nra.
    - apply (Rmult_le_reg_r (IZR (Zpos m2))); [done|]. rewrite Hxm. nra. }
  exists mf, ef. split; [done|]. split; [done|]. split; [lia|done].
Qed.

End Operations.

(** *** The quotient of a squared norm by the square of its root *)

Section SelfQuotient.

Lemma rel_ulp_small : (0 < rel_ulp <= / 16)%R.
Proof.
  unfold rel_ulp. change (2 ^ 52) with 4503599627370496. lra.
Qed.

(** Three roundings, of the root, of its square and of the quotient, move
    the result by at most five units in the last place. *)
Lemma self_quotient_bounds (w v x y Fr Fp Fq : R) :
  (0 < w <= / 16)%R →
  (0 < Fr)%R → (0 < Fp)%R → (0 < Fq)%R →
  (0 <= x)%R → (x * x = v)%R →
  (Fr * (1 - w) <= x <= Fr * (1 + w))%R →
  (Fp * (1 - w) <= Fr * Fr <= Fp * (1 + w))%R →
  (y * Fp = v)%R →
  (Fq * (1 - w) <= y <= Fq * (1 + w))%R →
  (1 - 5 * w <= Fq <= 1 + 5 * w)%R.
Proof.
  intros Hw HFr HFp HFq Hx0 Hxx [Hx1 Hx2] [Hp1 Hp2] Hy [Hq1 Hq2].
  set (a := (1 - w)%R) in *. set (b := (1 + w)%R) in *.
  assert (0 < a)%R as Ha by (unfold a; lra).
  assert (0 < b)%R as Hb by (unfold b; lra).
  assert (Fr * Fr * (a * a) <= v)%R as Hv1.
  { rewrite <- Hxx. assert (0 <= Fr * a)%R by nra. nra. }
  assert (v <= Fr * Fr * (b * b))%R as Hv2.
  { rewrite <- Hxx. assert (0 <= Fr * b)%R by nra. nra. }
  assert (Fp * (a * a * a) <= v)%R as Hv3.
  { assert (0 < a * a)%R by nra. nra. }
  assert (v <= Fp * (b * b * b))%R as Hv4.
  { assert (0 < b * b)%R by nra. nra. }
  assert (a * a * a <= y)%R as Hy1.
  { apply (Rmult_le_reg_r Fp); [done|]. rewrite Hy. lra. }
  assert (y <= b * b * b)%R as Hy2.
  { apply (Rmult_le_reg_r Fp); [done|]. rewrite Hy. lra. }
  assert (b * b * b <= (1 + 5 * w) * a)%R as Hb3.
  { unfold a, b. nra. }
  assert ((1 - 5 * w) * b <= a * a * a)%R as Ha3.
  { unfold a, b. nra. }
  split.
  - apply (Rmult_le_reg_r b); [done|]. lra.
  - apply (Rmult_le_reg_r a); [done|]. lra.
Qed.

(** A normalised double that close to one compares as [close_to_one]
    requires. *)
Lemma close_to_one_finite (mq : positive) (eq : Z) :
  2 ^ 52 ≤ Zpos mq < 2 ^ 53 → -57 ≤ eq ≤ -50 →
  (1 - 5 * rel_ulp <= F2R mq eq <= 1 + 5 * rel_ulp)%R →
  SFleb (S754_finite false 9007199254740976 (-53)) (S754_finite false mq eq) = true
  ∧ SFleb (S754_finite false mq eq) (S754_finite false 4503599627370504 (-52)) = true.
Proof.
  intros Hm He Hb.
  assert (IZR (2 ^ 52) <= IZR (Zpos mq) < IZR (2 ^ 53))%R as [Hm1 Hm2]
    by (split; [apply IZR_le|apply IZR_lt]; lia).
  change (2 ^ 52) with 4503599627370496 in *.
  change (2 ^ 53) with 9007199254740992 in *.
  unfold rel_ulp, F2R in Hb. change (2 ^ 52) with 4503599627370496 in Hb.
  assert (eq = -57 ∨ eq = -56 ∨ eq = -55 ∨ eq = -54 ∨ eq = -53 ∨ eq = -52
          ∨ eq = -51 ∨ eq = -50) as Hcases by lia.
  destruct Hcases as [->|[->|[->|[->|[->|[->|[->| ->]]]]]]];
    bpow_literal Hb; try lra.
  - assert (IZR 9007199254740982 <= IZR (Zpos mq))%R as H by lra.
    apply le_IZR in H. split; [|by vm_compute].
    unfold SFleb, SFcompare. simpl Z.compare. cbv iota.
    rewrite Pos.compare_cont_spec.
    destruct (Pos.compare_spec 9007199254740976 mq) as [| |Hgt]; simpl;
      [reflexivity|reflexivity|].
    apply Pos2Z.pos_lt_pos in Hgt. lia.
  - assert (IZR (Zpos mq) <= IZR 4503599627370501)%R as H by lra.
    apply le_IZR in H. split; [by vm_compute|].
    unfold SFleb, SFcompare. simpl Z.compare. cbv iota.
    rewrite Pos.compare_cont_spec.
    destruct (Pos.compare_spec mq 4503599627370504) as [| |Hgt]; simpl;
      [reflexivity|reflexivity|].
    apply Pos2Z.pos_lt_pos in Hgt. lia.
Qed.

(** A double in the range is positive, normal and far from both ends of
    the exponent range. *)
Lemma in_range_finite (n2 : float) :
  (range_lo <=? n2)%float = true → (n2 <=? range_hi)%float = true →
  ∃ (m : positive) (e : Z),
    Prim2SF n2 = S754_finite false m e
    ∧ Zpos (digits2_pos m) = 53 ∧ -1052 ≤ e ≤ 948.
Proof.
  rewrite !leb_spec. intros Hlo Hhi.
  pose proof (Prim2SF_valid n2) as Hvalid.
  change (Prim2SF range_lo) with (S754_finite false 4503599627370496 (-1052)) in Hlo.
  change (Prim2SF range_hi) with (S754_finite false 4503599627370496 948) in Hhi.
  destruct (Prim2SF n2) as [s|s| |s m e]; try done.
  { by destruct s. }
  destruct s; [done|].
  unfold SFleb, SFcompare in Hlo, Hhi.
  assert (-1052 ≤ e) as He1.
  { destruct (Z.compare_spec (-1052) e); lia || done. }
  assert (e ≤ 948) as He2.
  { destruct (Z.compare_spec e 948); lia || done. }
  exists m, e. split; [done|]. split; [|done].
  simpl in Hvalid. unfold bounded, canonical_mantissa in Hvalid.
  apply andb_true_iff in Hvalid as [Hc _]. apply Z.eqb_eq in Hc.
  unfold fexp, SpecFloat.emin, prec, emax in Hc. lia.
Qed.

(** The quotient of a double in the range by the square of its root. *)
Lemma self_quotient_close (n2 : float) :
  (range_lo <=? n2)%float = true → (n2 <=? range_hi)%float = true →
  close_to_one (n2 / (PrimFloat.sqrt n2 * PrimFloat.sqrt n2))%float = true.
Proof.
  intros Hlo Hhi.
  destruct (in_range_finite n2 Hlo Hhi) as (m & e & HS & Hd & He).
  pose proof (F2R_pos m e) as Hv.
  destruct (SFsqrt_rel m e (R_sqrt.sqrt (F2R m e)))
    as (mr & er & Hr & Hmr & Her & Hxr); [done|lia|apply sqrt_pos| |].
  { apply sqrt_sqrt. lra. }
  assert (Zpos (digits2_pos mr) = 53) as Hdr
    by (apply digits2_pos_unique; change (53 - 1) with 52; lia).
  destruct (SFmul_rel mr mr er er) as (mp & ep & Hp & Hmp & Hep & Hxp);
    [done|done|lia|].
  assert (Zpos (digits2_pos mp) = 53) as Hdp
    by (apply digits2_pos_unique; change (53 - 1) with 52; lia).
  pose proof (F2R_pos mp ep) as HFp.
  destruct (SFdiv_rel m mp e ep (F2R m e / F2R mp ep))
    as (mq & eq & Hq & Hmq & Heq & Hxq); [done|done|lia| |].
  { field. lra. }
  assert (1 - 5 * rel_ulp <= F2R mq eq <= 1 + 5 * rel_ulp)%R as Hbound.
  { apply (self_quotient_bounds rel_ulp (F2R m e) (R_sqrt.sqrt (F2R m e))
             (F2R m e / F2R mp ep) (F2R mr er) (F2R mp ep) (F2R mq eq));
      try done; try apply F2R_pos; try apply rel_ulp_small.
    - apply sqrt_pos.
    - apply sqrt_sqrt. lra.
    - field. lra. }
  destruct (close_to_one_finite mq eq Hmq) as [H1 H2]; [lia|done|].
  unfold close_to_one. rewrite !leb_spec, div_spec, mul_spec, sqrt_spec, HS.
  unfold SF64div, SF64mul, SF64sqrt. rewrite Hr, Hp, Hq.
  apply andb_true_iff. split; [exact H1|exact H2].
Qed.

End SelfQuotient.

(** ** The diagonal *)

Lemma cosineSimilarity_self (a : list number) :
  cosineSimilarity a a
  = (sumSquares a
     / (PrimFloat.sqrt (sumSquares a) * PrimFloat.sqrt (sumSquares a)))%float.
Proof. by rewrite cosineSimilarity_unfold, dotProduct_self. Qed.

(** The squared norm of [a], as the code sums it, is in the range in
    which neither its root nor the square of the root leaves the normal
    doubles. *)
Definition NormInRange (a : list number) : Prop :=
  (range_lo <=? sumSquares a)%float = true
  ∧ (sumSquares a <=? range_hi)%float = true.



(** The similarity of [[1, 1]] with itself is 1 - 2^-52, not one. *)
Example similarity_of_ones :
  cosineSimilarity [1; 1]%float [1; 1]%float = 0x1.ffffffffffffep-1%float.
Proof. by vm_compute. Qed.


(** A squared norm that overflows or underflows gives [NaN] as well. *)
Example extreme_vector_similarity_nan :
  cosineSimilarity [0x1p+600]%float [0x1p+600]%float = nan
  ∧ cosineSimilarity [0x1p-600]%float [0x1p-600]%float = nan.
Proof. by vm_compute. Qed.

(** * Further properties of the code *)

(** ** The request of [readUrl] *)

Section Trim.
Implicit Types s : jsstring.

Lemma drop_while_last (f : code_unit → bool) s c :
  f c = false → drop_while f (s ++ [c]) ≠ [].
Proof.
  intros Hc. induction s as [|x s IH]; simpl; [by rewrite Hc|].
  by destruct (f x).
Qed.

(** A string that starts with a code unit that is no white space is not
    trimmed to the empty string. *)
Lemma trim_nonempty c s : is_whitespace c = false → truthy (trim (c :: s)) = true.
Proof.
  intros Hc. unfold trim. simpl drop_while at 2. rewrite Hc, reverse_cons.
  pose proof (drop_while_last is_whitespace (reverse s) c Hc) as Hne.
  destruct (drop_while is_whitespace (reverse s ++ [c])) as [|x t]; [done|].
  rewrite reverse_cons. by destruct (reverse t).
Qed.

Lemma http_url_passes_validation (url : jsstring) :
  lit "http://" `prefix_of` url ∨ lit "https://" `prefix_of` url →
  truthy (trim url) = true
  ∧ negb (startsWith url (lit "http://")) && negb (startsWith url (lit "https://"))
    = false.
Proof.
  intros H. split.
  - destruct H as [[k ->]|[k ->]]; by apply trim_nonempty.
  - destruct H as [H|H]; apply startsWith_prefix in H; rewrite H; simpl;
      [done|apply andb_false_r].
Qed.
End Trim.

(** The headers of a request, in the order in which they are set. *)
Definition request_headers (key : jsstring) (withAllLinks : option bool)
    : list (string * jsstring) :=
  [("Accept"%string, lit "application/json");
   ("Authorization"%string, lit "Bearer " ++ key);
   ("Content-Type"%string, lit "application/json");
   ("X-Retain-Images"%string, lit "none");
   ("X-Md-Link-Style"%string, lit "discarded")]
  ++ (if default false withAllLinks
      then [("X-With-Links-Summary"%string, lit "all")] else []).

(** The request for [url]. *)
Definition request_for (key url : jsstring) (withAllLinks : option bool)
    : Reader.Request :=
  Reader.mkRequest (lit "https://r.jina.ai/") url
    (request_headers key withAllLinks) 60000 "json".

Lemma readUrl_valid_unfold key network (url : jsstring) flag w :
  lit "http://" `prefix_of` url ∨ lit "https://" `prefix_of` url →
  Reader.readUrl key network url flag w
  = let w1 := Reader.mkWorld (Reader.sent w ++ [request_for key url flag])
                (Reader.console w) in
    match network (request_for key url flag) with
    | inl e =>
        (Reader.mkWorld (Reader.sent w1)
           (Reader.console w1
              ++ [Reader.ConsoleError ("Error reading URL: " ++ message e)%string]),
         inl e)
    | inr resp =>
        match Reader.data resp with
        | None =>
            (Reader.mkWorld (Reader.sent w1)
               (Reader.console w1
                  ++ [Reader.ConsoleError
                        "Error reading URL: Invalid response data"]),
             inl (mkError "Invalid response data"))
        | Some d =>
            (Reader.mkWorld (Reader.sent w1)
               (Reader.console w1
                  ++ [Reader.ConsoleLog (Reader.title d) (Reader.url d)
                        (Reader.or_zero (Reader.tokens <$> Reader.usage d))]),
             inr resp)
        end
    end.
Proof.
  intros [Htrim Hscheme]%http_url_passes_validation.
  unfold Reader.readUrl. rewrite Htrim, Hscheme. simpl negb. cbv iota.
  unfold Reader.try_catch, Reader.bind, Reader.post, request_for, request_headers.
  replace (if default false flag
           then [("Accept"%string, lit "application/json");
                 ("Authorization"%string, lit "Bearer " ++ key);
                 ("Content-Type"%string, lit "application/json");
                 ("X-Retain-Images"%string, lit "none");
                 ("X-Md-Link-Style"%string, lit "discarded")]
                ++ [("X-With-Links-Summary"%string, lit "all")]
           else [("Accept"%string, lit "application/json");
                 ("Authorization"%string, lit "Bearer " ++ key);
                 ("Content-Type"%string, lit "application/json");
                 ("X-Retain-Images"%string, lit "none");
                 ("X-Md-Link-Style"%string, lit "discarded")])
    with ([("Accept"%string, lit "application/json");
           ("Authorization"%string, lit "Bearer " ++ key);
           ("Content-Type"%string, lit "application/json");
           ("X-Retain-Images"%string, lit "none");
           ("X-Md-Link-Style"%string, lit "discarded")]
          ++ (if default false flag
              then [("X-With-Links-Summary"%string, lit "all")] else []))
    by (destruct (default false flag); [done|by rewrite app_nil_r]).
  destruct (network _) as [e|resp]; [done|].
  by destruct (Reader.data resp).
Qed.

(** X1. For every [url] that starts with [http://] or [https://],
    [readUrl] sends exactly one request, whatever the network answers: a
    POST to the fixed endpoint with the url as body, a timeout of 60000
    ms, the five fixed headers with the key as bearer token, and the
    header [X-With-Links-Summary: all] exactly when [withAllLinks] is
    true. *)
Theorem readUrl_sends_one_request key network (url : jsstring) flag w :
  lit "http://" `prefix_of` url ∨ lit "https://" `prefix_of` url →
  Reader.sent (fst (Reader.readUrl key network url flag w))
  = Reader.sent w ++ [request_for key url flag].
Proof.
  intros H. rewrite (readUrl_valid_unfold _ _ _ _ _ H). simpl.
  destruct (network _) as [e|resp]; [done|].
  by destruct (Reader.data resp).
Qed.

Lemma readUrl_sends_one_request_witness :
  Reader.sent (fst (Reader.readUrl (lit "secret")
                      (λ _, inl (mkError "timeout of 60000ms exceeded"))
                      (lit "https://example.com/a b") (Some true)
                      (Reader.mkWorld [] [])))
  = Reader.sent (Reader.mkWorld [] [])
    ++ [request_for (lit "secret") (lit "https://example.com/a b") (Some true)].
Proof.
  apply readUrl_sends_one_request. right.
  apply (bool_decide_unpack _). by vm_compute.
Defined.

(** X2. When the answer to a valid url carries [data], [readUrl] returns
    the answer as it came and logs one record: the title, the url and the
    token count of the answer, zero when the usage is missing. *)
Theorem readUrl_success key network (url : jsstring) flag w resp d :
  lit "http://" `prefix_of` url ∨ lit "https://" `prefix_of` url →
  network (request_for key url flag) = inr resp →
  Reader.data resp = Some d →
  Reader.readUrl key network url flag w
  = (Reader.mkWorld (Reader.sent w ++ [request_for key url flag])
       (Reader.console w
          ++ [Reader.ConsoleLog (Reader.title d) (Reader.url d)
                (match Reader.usage d with
                 | Some us => Reader.tokens us
                 | None => 0
                 end)]),
     inr resp).
Proof.
  intros H Hnet Hd. rewrite (readUrl_valid_unfold _ _ _ _ _ H). simpl.
  rewrite Hnet, Hd. by destruct (Reader.usage d).
Qed.

Lemma readUrl_success_witness :
  Reader.readUrl (lit "secret")
    (λ _, inr (Reader.mkReadResponse
                 (Some (Reader.mkReadData (lit "Title") (lit "https://x/") None))))
    (lit "https://x") None (Reader.mkWorld [] [])
  = (Reader.mkWorld ([] ++ [request_for (lit "secret") (lit "https://x") None])
       ([] ++ [Reader.ConsoleLog (lit "Title") (lit "https://x/") 0]),
     inr (Reader.mkReadResponse
            (Some (Reader.mkReadData (lit "Title") (lit "https://x/") None)))).
Proof.
  apply (readUrl_success (lit "secret") _ (lit "https://x") None
           (Reader.mkWorld [] []) _
           (Reader.mkReadData (lit "Title") (lit "https://x/") None)).
  - right. apply (bool_decide_unpack _). by vm_compute.
  - reflexivity.
  - reflexivity.
Defined.

(** X3. Every failure after the validation is logged once and thrown on:
    a failure of the network is rethrown as it is, with no second
    attempt, and an answer without [data] throws [Invalid response data],
    which is logged like a failure of the network. *)
Theorem readUrl_failure key network (url : jsstring) flag w :
  lit "http://" `prefix_of` url ∨ lit "https://" `prefix_of` url →
  (∀ e, network (request_for key url flag) = inl e →
     Reader.readUrl key network url flag w
     = (Reader.mkWorld (Reader.sent w ++ [request_for key url flag])
          (Reader.console w
             ++ [Reader.ConsoleError ("Error reading URL: " ++ message e)%string]),
        inl e))
  ∧ (∀ resp, network (request_for key url flag) = inr resp →
       Reader.data resp = None →
       Reader.readUrl key network url flag w
       = (Reader.mkWorld (Reader.sent w ++ [request_for key url flag])
            (Reader.console w
               ++ [Reader.ConsoleError "Error reading URL: Invalid response data"]),
          inl (mkError "Invalid response data"))).
Proof.
  intros H. split.
  - intros e Hnet. rewrite (readUrl_valid_unfold _ _ _ _ _ H). simpl.
    by rewrite Hnet.
  - intros resp Hnet Hd. rewrite (readUrl_valid_unfold _ _ _ _ _ H). simpl.
    by rewrite Hnet, Hd.
Qed.

Lemma readUrl_failure_witness :
  Reader.readUrl (lit "secret") (λ _, inl (mkError "Network Error"))
    (lit "http://x") None (Reader.mkWorld [] [])
  = (Reader.mkWorld ([] ++ [request_for (lit "secret") (lit "http://x") None])
       ([] ++ [Reader.ConsoleError "Error reading URL: Network Error"]),
     inl (mkError "Network Error")).
Proof.
  assert (lit "http://" `prefix_of` lit "http://x"
          ∨ lit "https://" `prefix_of` lit "http://x") as H.
  { left. apply (bool_decide_unpack _). by vm_compute. }
  exact (proj1 (readUrl_failure (lit "secret") (λ _, inl (mkError "Network Error"))
                  (lit "http://x") None (Reader.mkWorld [] []) H)
           (mkError "Network Error") eq_refl).
Defined.

(** ** Vectors without a non-zero entry *)

(** A double that is a zero of either sign or [NaN]. *)
Definition zero_or_nan (x : float) : Prop :=
  Prim2SF x = S754_nan ∨ ∃ s, Prim2SF x = S754_zero s.

Section ZeroOrNaN.
Implicit Types x y : float.

Lemma is_zero_spec x : is_zero x = true → ∃ s, Prim2SF x = S754_zero s.
Proof.
  unfold is_zero. rewrite FloatAxioms.eqb_spec.
  change (Prim2SF zero) with (S754_zero false).
  destruct (Prim2SF x) as [s|s| |s m e]; try done; [by exists s| |];
    by destruct s.
Qed.

Lemma zero_or_nan_nan : zero_or_nan nan.
Proof. by left. Qed.

Lemma zero_or_nan_zero : zero_or_nan 0%float.
Proof. right. by exists false. Qed.

Lemma mul_zero_or_nan_l x y : zero_or_nan x → zero_or_nan (x * y)%float.
Proof.
  unfold zero_or_nan. intros H. rewrite mul_spec.
  destruct H as [->|[s ->]]; [by left|].
  destruct (Prim2SF y) as [s'|s'| |s' m e]; simpl; eauto.
Qed.

Lemma mul_zero_or_nan_r x y : zero_or_nan y → zero_or_nan (x * y)%float.
Proof. rewrite mul_comm. apply mul_zero_or_nan_l. Qed.

Lemma add_zero_or_nan x y :
  zero_or_nan x → zero_or_nan y → zero_or_nan (x + y)%float.
Proof.
  unfold zero_or_nan. intros Hx Hy. rewrite add_spec.
  destruct Hx as [->|[s ->]], Hy as [->|[s' ->]]; simpl; eauto.
  destruct s, s'; simpl; eauto.
Qed.

Lemma sqrt_zero_or_nan x : zero_or_nan x → zero_or_nan (PrimFloat.sqrt x).
Proof.
  unfold zero_or_nan. intros H. rewrite sqrt_spec.
  destruct H as [->|[s ->]]; simpl; eauto.
Qed.

Lemma div_zero_or_nan x y : zero_or_nan x → zero_or_nan y → (x / y)%float = nan.
Proof.
  unfold zero_or_nan. intros Hx Hy. apply Prim2SF_inj. rewrite div_spec.
  change (Prim2SF nan) with S754_nan.
  destruct Hx as [->|[s ->]], Hy as [->|[s' ->]]; done.
Qed.

Lemma toNumber_zero_or_nan (a : list number) i :
  Forall (λ x, is_zero x = true) a → zero_or_nan (toNumber (a !! i)).
Proof.
  intros Ha. destruct (a !! i) as [x|] eqn:Hx; simpl; [|apply zero_or_nan_nan].
  right. apply is_zero_spec. by apply (proj1 (Forall_lookup _ _) Ha i).
Qed.

(** A sum of products with the entries of a zero vector. *)
Lemma reduce_zero_entries (g : float → nat → float) (a : list number) :
  Forall (λ x, is_zero x = true) a →
  ∀ k acc, zero_or_nan acc →
    zero_or_nan (reduce_from (λ sum val i, sum + val * g val i)%float k acc a).
Proof.
  induction 1 as [|x a Hx _ IH]; intros k acc Hacc; simpl; [done|].
  apply IH, add_zero_or_nan; [done|].
  apply mul_zero_or_nan_l. right. by apply is_zero_spec.
Qed.

(** A sum of products with zero factors. *)
Lemma reduce_zero_factors (g : nat → float) (b : list number) :
  (∀ i, zero_or_nan (g i)) →
  ∀ k acc, zero_or_nan acc →
    zero_or_nan (reduce_from (λ sum val i, sum + val * g i)%float k acc b).
Proof.
  intros Hg. induction b as [|x b IH]; intros k acc Hacc; simpl; [done|].
  apply IH, add_zero_or_nan; [done|]. by apply mul_zero_or_nan_r.
Qed.
End ZeroOrNaN.

(** X4. When no entry of [a] is different from zero (the empty vector
    and the vectors of zeros of either sign), the similarity of [a] with
    any vector [b], of any length and in either order, is [NaN]: the
    division by the zero norm is not guarded. *)
Theorem cosineSimilarity_zero_vector (a b : list number) :
  Forall (λ x, is_zero x = true) a →
  cosineSimilarity a b = nan ∧ cosineSimilarity b a = nan.
Proof.
  intros Ha.
  assert (zero_or_nan (PrimFloat.sqrt (sumSquares a))) as Hnorm.
  { apply sqrt_zero_or_nan.
    apply (reduce_zero_entries (λ val _, val) a Ha), zero_or_nan_zero. }
  split; rewrite cosineSimilarity_unfold; apply div_zero_or_nan.
  - apply (reduce_zero_entries (λ _ i, toNumber (b !! i)) a Ha), zero_or_nan_zero.
  - by apply mul_zero_or_nan_l.
  - apply (reduce_zero_factors (λ i, toNumber (a !! i)) b); [|apply zero_or_nan_zero].
    intros i. by apply toNumber_zero_or_nan.
  - by apply mul_zero_or_nan_r.
Qed.

Lemma cosineSimilarity_zero_vector_witness :
  cosineSimilarity [0; -0]%float [3; 4]%float = nan
  ∧ cosineSimilarity [3; 4]%float [0; -0]%float = nan.
Proof.
  apply cosineSimilarity_zero_vector. repeat constructor.
Defined.

Example cosineSimilarity_empty_vector :
  cosineSimilarity [] [3; 4]%float = nan ∧ cosineSimilarity [] [] = nan.
Proof. by vm_compute. Qed.

(** ** How matrices compose *)

(** X5. For vector lists [V1] and [V2] whose vectors all have one length,
    the matrix of [V2] against [V1] is the transpose of the matrix of
    [V1] against [V2]. *)
Theorem computeCorrelationMatrix_transpose (V1 V2 : list (list number)) (n : nat) :
  Forall (λ v, length v = n) V1 → Forall (λ v, length v = n) V2 →
  ∃ M M', computeCorrelationMatrix V1 V2 = Some M
        ∧ computeCorrelationMatrix V2 V1 = Some M'
        ∧ ∀ i j, (row ← M !! i; row !! j) = (row ← M' !! j; row !! i).
Proof.
  intros H1 H2. eexists _, _.
  split; [apply computeCorrelationMatrix_eq|].
  split; [apply computeCorrelationMatrix_eq|].
  intros i j. rewrite !matrix_cell.
  destruct (V1 !! i) as [a|] eqn:Ha, (V2 !! j) as [b|] eqn:Hb; simpl; try done.
  f_equal. apply cosineSimilarity_comm.
  rewrite Forall_lookup in H1, H2. by rewrite (H1 _ _ Ha), (H2 _ _ Hb).
Qed.

Lemma computeCorrelationMatrix_transpose_witness :
  ∃ M M', computeCorrelationMatrix [[1; 0]; [1; 1]]%float [[0; 1]]%float = Some M
        ∧ computeCorrelationMatrix [[0; 1]]%float [[1; 0]; [1; 1]]%float = Some M'
        ∧ ∀ i j, (row ← M !! i; row !! j) = (row ← M' !! j; row !! i).
Proof.
  apply (computeCorrelationMatrix_transpose _ _ 2%nat); by repeat constructor.
Defined.

(** X6. The matrix is built row by row and cell by cell from the vectors
    alone: the matrix of [V1 ++ W] against [V2] is the matrix of [V1]
    against [V2] followed by the rows of [W] against [V2], and the matrix
    of [V1] against [V2 ++ W] has for rows the rows of [V1] against [V2],
    each followed by the row of the same vector against [W]. *)
Theorem computeCorrelationMatrix_app (V1 V2 W : list (list number)) :
  computeCorrelationMatrix (V1 ++ W) V2
  = (top ← computeCorrelationMatrix V1 V2;
     bottom ← computeCorrelationMatrix W V2;
     Some (top ++ bottom))
  ∧ computeCorrelationMatrix V1 (V2 ++ W)
    = (left ← computeCorrelationMatrix V1 V2;
       right ← computeCorrelationMatrix V1 W;
       Some (zip_with app left right)).
Proof.
  rewrite !computeCorrelationMatrix_eq. simpl. split.
  - by rewrite fmap_app.
  - f_equal. induction V1 as [|a V1 IH]; [done|].
    rewrite !fmap_cons. simpl zip_with. f_equal; [apply fmap_app|exact IH].
Qed.

(** ** Labels again *)

(** X7. A label is never longer than its bound plus the ellipsis, or
    than the image glyph: at most [max 3 (maxLen + 1)] code units, and at
    most 33 with the default bound. *)
Theorem truncateLabel_length (text : jsstring) (maxLen : nat) :
  (length (truncateLabel text (Some (Z.of_nat maxLen))) ≤ Nat.max 3 (maxLen + 1))%nat
  ∧ (length (truncateLabel text None) ≤ 33)%nat.
Proof.
  assert (∀ n : nat,
            (length (truncateLabel text (Some (Z.of_nat n))) ≤ Nat.max 3 (n + 1))%nat)
    as Hb.
  { intros n. unfold truncateLabel. simpl default.
    destruct (isImagePath text); [simpl; lia|].
    destruct (Z.gtb_spec (Z.of_nat (length text)) (Z.of_nat n)); [|lia].
    rewrite slice_prefix, length_app, length_take. simpl. lia. }
  split; [apply Hb|]. apply (Hb 32%nat).
Qed.

Section Relabel.
Implicit Types s p : jsstring.

Lemma prefix_snoc_inv p s (c : code_unit) :
  p `prefix_of` (s ++ [c]) → c ∉ p → p `prefix_of` s.
Proof.
  intros [k Hk] Hc. destruct (decide (k = [])) as [->|Hne].
  - rewrite app_nil_r in Hk. subst p. destruct Hc.
    apply elem_of_app. right. by apply list_elem_of_singleton.
  - destruct (exists_last Hne) as (k' & x & ->).
    rewrite app_assoc in Hk. apply app_inj_tail in Hk as [-> _].
    by exists k'.
Qed.

Lemma suffix_snoc_inv p s (c x : code_unit) :
  (p ++ [x]) `suffix_of` (s ++ [c]) → x = c.
Proof.
  intros [k Hk]. rewrite app_assoc in Hk.
  by apply app_inj_tail in Hk as [_ ->].
Qed.

(** A text cut by [truncateLabel] is no image reference if the text was
    none. *)
Lemma truncated_not_image s (n : nat) :
  isImagePath s = false → isImagePath (take n s ++ ellipsis) = false.
Proof.
  rewrite !isImagePath_false. intros Hs Hcut. apply Hs.
  unfold ImageReference in *.
  assert (∀ p, 8230%N ∉ p → p `prefix_of` (take n s ++ ellipsis) → p `prefix_of` s)
    as Hpre.
  { intros p Hp H. apply prefix_snoc_inv in H; [|done].
    etrans; [done|]. apply prefix_take. }
  assert (∀ p x, x ≠ 8230%N → ¬ (p ++ [x]) `suffix_of` (take n s ++ ellipsis))
    as Hsuf.
  { intros p x Hx H. by apply suffix_snoc_inv in H. }
  destruct Hcut as [H|[H|[H|[H|[H|[H|[H|H]]]]]]].
  - left. apply Hpre; [|done]. apply (bool_decide_unpack _). by vm_compute.
  - right; left. apply Hpre; [|done]. apply (bool_decide_unpack _). by vm_compute.
  - do 2 right; left. apply Hpre; [|done].
    apply (bool_decide_unpack _). by vm_compute.
  - by destruct (Hsuf (lit ".jp") 103%N).
  - by destruct (Hsuf (lit ".jpe") 103%N).
  - by destruct (Hsuf (lit ".pn") 103%N).
  - by destruct (Hsuf (lit ".gi") 102%N).
  - by destruct (Hsuf (lit ".web") 112%N).
Qed.
End Relabel.

(** X8. With a bound of at least three code units, so with the default
    bound, labelling a label again changes nothing. *)
Theorem truncateLabel_idempotent (text : jsstring) (maxLen : nat) :
  (3 ≤ maxLen)%nat →
  truncateLabel (truncateLabel text (Some (Z.of_nat maxLen)))
    (Some (Z.of_nat maxLen))
  = truncateLabel text (Some (Z.of_nat maxLen)).
Proof.
  intros Hn. destruct (isImagePath text) eqn:Himg.
  - assert (truncateLabel text (Some (Z.of_nat maxLen)) = image_glyph) as ->
      by (unfold truncateLabel; by rewrite Himg).
    unfold truncateLabel. simpl default.
    replace (isImagePath image_glyph) with false by (by vm_compute).
    destruct (Z.gtb_spec (Z.of_nat (length image_glyph)) (Z.of_nat maxLen));
      [simpl in *; lia|done].
  - destruct (Z.gtb_spec (Z.of_nat (length text)) (Z.of_nat maxLen)) as [Hlong|Hshort].
    + assert (truncateLabel text (Some (Z.of_nat maxLen))
              = take maxLen text ++ ellipsis) as ->.
      { unfold truncateLabel. simpl default. rewrite Himg, slice_prefix.
        destruct (Z.gtb_spec (Z.of_nat (length text)) (Z.of_nat maxLen)); [done|lia]. }
      unfold truncateLabel. simpl default.
      rewrite (truncated_not_image _ _ Himg).
      assert (length (take maxLen text) = maxLen) as Hlen
        by (rewrite length_take; lia).
      destruct (Z.gtb_spec (Z.of_nat (length (take maxLen text ++ ellipsis)))
                  (Z.of_nat maxLen)) as [_|Hle].
      * rewrite slice_prefix. f_equal.
        rewrite take_app_le by lia. by rewrite take_ge by lia.
      * rewrite length_app, Hlen in Hle. simpl in Hle. lia.
    + assert (truncateLabel text (Some (Z.of_nat maxLen)) = text) as Hsame.
      { unfold truncateLabel. simpl default. rewrite Himg.
        destruct (Z.gtb_spec (Z.of_nat (length text)) (Z.of_nat maxLen)); [lia|done]. }
      by rewrite !Hsame.
Qed.

Lemma truncateLabel_idempotent_witness :
  truncateLabel (truncateLabel (lit "correlation") (Some (Z.of_nat 5)))
    (Some (Z.of_nat 5))
  = truncateLabel (lit "correlation") (Some (Z.of_nat 5)).
Proof. apply truncateLabel_idempotent. lia. Defined.

(** With a bound below three the image glyph is cut itself. *)
Example truncateLabel_cuts_glyph :
  truncateLabel (truncateLabel (lit "a.png") (Some 2)) (Some 2)
  = [55357; 56764; 8230]%N.
Proof. by vm_compute. Qed.

(** ** Ingested chunks *)

Lemma isImagePath_dataURI h fullPath bytes :
  isImagePath (dataURI h fullPath bytes) = true.
Proof. unfold isImagePath. by rewrite dataURI_self_contained. Qed.

(** An ingested chunk is classified as the chunk it comes from, and
    ingesting it again returns it. *)
Lemma ingest_stable h d c out :
  ingest h d c = inr out →
  isImagePath out = isImagePath c ∧ ingest h d out = inr out.
Proof.
  unfold ingest. destruct (isImagePath c) eqn:Hc.
  - rewrite resolveImagePath_cases.
    destruct (startsWith c (lit "data:image/") || startsWith c (lit "http://")
              || startsWith c (lit "https://")) eqn:Hs.
    + intros [= <-]. by rewrite Hc, resolveImagePath_cases, Hs.
    + destruct (fs_entry_at h (path_resolve h d c)) as [|e|bytes] eqn:Hfs;
        [|done|]; intros [= <-].
      * by rewrite Hc, resolveImagePath_cases, Hs, Hfs.
      * rewrite isImagePath_dataURI. split; [done|].
        by rewrite resolveImagePath_cases, dataURI_self_contained.
  - intros [= <-]. by rewrite Hc.
Qed.

Lemma listen_records_inv h d recs : ∀ embs0 chunks0 embs chunks,
  listen h d ((ParserData <$> recs) ++ [ParserEnd]) embs0 chunks0
    = Resolved embs chunks →
  ∃ outs, Forall2 (λ r out, ingest h d (chunk r) = inr out) recs outs
        ∧ embs = embs0 ++ (embedding <$> recs)
        ∧ chunks = chunks0 ++ outs.
Proof.
  induction recs as [|r recs IH]; intros embs0 chunks0 embs chunks; simpl.
  - intros [= <- <-]. exists []. by rewrite !app_nil_r.
  - destruct (if isImagePath (chunk r) then _ else _) as [e|out] eqn:Hr; [done|].
    intros (outs & Hall & -> & ->)%IH. exists (out :: outs).
    rewrite <- !app_assoc. by repeat split; [constructor|..].
Qed.

(** The records of a file with their chunks replaced by the ingested
    ones. *)
Definition ingested_records (recs : list EmbeddingOutput) (chunks : list jsstring)
    : list EmbeddingOutput :=
  zip_with (λ r c, mkEmbeddingOutput (embedding r) c) recs chunks.

Lemma ingested_records_stable h d recs outs :
  Forall2 (λ r out, ingest h d (chunk r) = inr out) recs outs →
  Forall2 (λ r out, ingest h d (chunk r) = inr out)
    (ingested_records recs outs) outs
  ∧ embedding <$> ingested_records recs outs = embedding <$> recs.
Proof.
  induction 1 as [|r out recs outs Hr _ [IH1 IH2]]; [done|].
  unfold ingested_records in *. simpl zip_with. split.
  - constructor; [|done]. by apply ingest_stable in Hr as [_ ?].
  - rewrite !fmap_cons. by f_equal.
Qed.

(** X9. Ingestion is stable: when [loadEmbeddings] has resolved a file,
    every chunk it returns is classified like the chunk of its record (an
    image reference stays one, so its label is the image glyph), and
    loading the same records with the returned chunks in place of the
    original ones returns the same result. *)
Theorem loadEmbeddings_stable (h : Host) (filePath model : jsstring)
    (recs : list EmbeddingOutput) embs chunks :
  loadEmbeddings h filePath model ((ParserData <$> recs) ++ [ParserEnd])
    = Resolved embs chunks →
  Forall2 (λ r c, isImagePath c = isImagePath (chunk r)
                  ∧ (ImageReference (chunk r) →
                       truncateLabel c None = image_glyph)) recs chunks
  ∧ loadEmbeddings h filePath model
      ((ParserData <$> ingested_records recs chunks) ++ [ParserEnd])
    = Resolved embs chunks.
Proof.
  unfold loadEmbeddings.
  intros (outs & Hall & -> & ->)%listen_records_inv. simpl.
  split.
  - induction Hall as [|r out recs outs Hr _ IH]; constructor; [|done].
    apply ingest_stable in Hr as [Hcls _]. split; [done|].
    intros Himg%isImagePath_spec. unfold truncateLabel.
    by rewrite Hcls, Himg.
  - destruct (ingested_records_stable _ _ _ _ Hall) as [Hall' Hembs].
    by rewrite (listen_records _ _ _ _ _ _ _ Hall'), Hembs.
Qed.

Lemma loadEmbeddings_stable_witness :
  let recs := [Demo.record "cat.png"; Demo.record "a note"] in
  let chunks := [lit "data:image/png;base64,TWFu"; lit "a note"] in
  loadEmbeddings Demo.host (lit "/data/run.jsonl") (lit "m")
    ((ParserData <$> ingested_records recs chunks) ++ [ParserEnd])
  = Resolved [[1; 0]; [1; 0]]%float chunks.
Proof.
  intros recs chunks.
  refine (proj2 (loadEmbeddings_stable Demo.host (lit "/data/run.jsonl") (lit "m")
    recs _ _ _)).
  by vm_compute.
Defined.

(** ** The page *)

Section Replace.
Import JSReplace.
Implicit Types s search p q r : jsstring.

Lemma indexOf_from_spec s search : ∀ i,
  match indexOf_from s search i with
  | None => ∀ k, startsWith (drop k s) search = false
  | Some pos =>
      ∃ k, pos = (i + k)%nat
         ∧ startsWith (drop k s) search = true
         ∧ ∀ j, (j < k)%nat → startsWith (drop j s) search = false
  end.
Proof.
  induction s as [|c s IH]; intros i; cbn [indexOf_from].
  - destruct (startsWith [] search) eqn:H.
    + exists 0%nat. rewrite Nat.add_0_r. repeat split; [done|lia].
    + intros k. by rewrite drop_nil.
  - destruct (startsWith (c :: s) search) eqn:H.
    + exists 0%nat. rewrite Nat.add_0_r. repeat split; [done|lia].
    + specialize (IH (S i)).
      destruct (indexOf_from s search (S i)) as [pos|].
      * destruct IH as (k & -> & Hk & Hlt). exists (S k).
        split; [lia|]. split; [done|].
        intros [|j] ?; [done|]. apply Hlt. lia.
      * intros [|k]; [done|apply IH].
Qed.

Lemma occurs_startsWith p search q :
  startsWith (drop (length p) (p ++ search ++ q)) search = true.
Proof. rewrite drop_app_length. apply startsWith_prefix. by exists q. Qed.

Lemma startsWith_occurs s search k :
  startsWith (drop k s) search = true →
  s = take k s ++ search ++ drop (length search) (drop k s).
Proof.
  intros [q Hq]%startsWith_prefix.
  rewrite <- (take_drop k s) at 1. f_equal.
  by rewrite Hq, drop_app_length.
Qed.

(** Without an occurrence the string is returned as it is. *)
Lemma replace_absent s search r :
  (∀ p q, s ≠ p ++ search ++ q) → replace s search r = s.
Proof.
  intros Habs. unfold replace, indexOf.
  pose proof (indexOf_from_spec s search 0) as H.
  destruct (indexOf_from s search 0) as [pos|]; [|done].
  destruct H as (k & _ & Hk & _). by apply startsWith_occurs, Habs in Hk.
Qed.

(** The first occurrence is the one replaced. *)
Lemma replace_first pre search post r :
  (∀ p q, pre ++ search ++ post = p ++ search ++ q →
          (length pre ≤ length p)%nat) →
  replace (pre ++ search ++ post) search r
  = pre ++ substitute search pre post r ++ post.
Proof.
  intros Hfirst. unfold replace, indexOf.
  pose proof (indexOf_from_spec (pre ++ search ++ post) search 0) as H.
  destruct (indexOf_from (pre ++ search ++ post) search 0) as [pos|].
  - destruct H as (k & -> & Hk & Hlt).
    assert (k = length pre) as ->.
    { destruct (lt_eq_lt_dec k (length pre)) as [[Hk'|]|Hk']; [|done|].
      - apply startsWith_occurs, Hfirst in Hk.
        rewrite length_take in Hk. lia.
      - apply Hlt in Hk'. by rewrite occurs_startsWith in Hk'. }
    cbn [Nat.add]. rewrite take_app_length.
    by rewrite <- drop_drop, !drop_app_length.
  - specialize (H (length pre)). by rewrite occurs_startsWith in H.
Qed.

Lemma substitute_cons_plain m b a (c : code_unit) r :
  c ≠ 36%N → substitute m b a (c :: r) = c :: substitute m b a r.
Proof.
  intros Hc. destruct c as [|c]; [done|].
  do 6 (try (destruct c as [c|c|]; try done)).
Qed.

Lemma substitute_app_plain m b a x y :
  36%N ∉ x → substitute m b a (x ++ y) = x ++ substitute m b a y.
Proof.
  induction x as [|c x IH]; [done|].
  intros [Hc Hx]%not_elem_of_cons. rewrite <- app_comm_cons.
  rewrite substitute_cons_plain by done. by rewrite IH.
Qed.

Lemma substitute_plain m b a x : 36%N ∉ x → substitute m b a x = x.
Proof.
  intros Hx. rewrite <- (app_nil_r x) at 1.
  by rewrite substitute_app_plain, app_nil_r.
Qed.

End Replace.

Section Page.
Import JSReplace CorrPage.
Variable ph : PageHost.

(** The path [generateHTML] reads the template from. *)
Definition templatePath : jsstring :=
  path_join ph (module_dirname ph) (lit "../templates/correlation_d3.html").

(** X10. A template without the placeholder is served as it is, whatever
    the data: the payload is left out without an error. *)
Theorem generateHTML_without_placeholder (data : CorrelationData)
    (template : jsstring) :
  readTextFileSync ph templatePath = inr template →
  (∀ p q, template ≠ p ++ placeholder ++ q) →
  generateHTML ph data = inr template.
Proof.
  unfold generateHTML, templatePath. intros -> Habs.
  by rewrite replace_absent.
Qed.

(** X11. The payload takes the place of the first occurrence of the
    placeholder and of that one only: the text before it and all the text
    after it, later occurrences included, are kept. The payload is
    inserted as it is when it holds no dollar sign. *)
Theorem generateHTML_first_occurrence (data : CorrelationData)
    (pre post : jsstring) :
  readTextFileSync ph templatePath = inr (pre ++ placeholder ++ post) →
  (∀ p q, pre ++ placeholder ++ post = p ++ placeholder ++ q →
          (length pre ≤ length p)%nat) →
  generateHTML ph data
    = inr (pre ++ substitute placeholder pre post (stringify ph data) ++ post)
  ∧ (36%N ∉ stringify ph data →
     generateHTML ph data = inr (pre ++ stringify ph data ++ post)).
Proof.
  unfold generateHTML, templatePath. intros -> Hfirst.
  rewrite replace_first by done. split; [done|].
  intros Hplain. by rewrite substitute_plain.
Qed.

(** X12. A dollar sign in the payload is read as a replacement pattern:
    where the payload has [$&] the page has the placeholder again, where
    it has [$`] the text of the template before the placeholder, where it
    has [$'] the text after it, and [$$] leaves one dollar sign. *)
Theorem generateHTML_dollar_patterns (data : CorrelationData)
    (pre post x y : jsstring) (c : code_unit) :
  readTextFileSync ph templatePath = inr (pre ++ placeholder ++ post) →
  (∀ p q, pre ++ placeholder ++ post = p ++ placeholder ++ q →
          (length pre ≤ length p)%nat) →
  stringify ph data = x ++ [36%N; c] ++ y →
  36%N ∉ x → 36%N ∉ y →
  (c = 38%N →
     generateHTML ph data = inr (pre ++ (x ++ placeholder ++ y) ++ post))
  ∧ (c = 96%N →
     generateHTML ph data = inr (pre ++ (x ++ pre ++ y) ++ post))
  ∧ (c = 39%N →
     generateHTML ph data = inr (pre ++ (x ++ post ++ y) ++ post))
  ∧ (c = 36%N →
     generateHTML ph data = inr (pre ++ (x ++ [36%N] ++ y) ++ post)).
Proof.
  unfold generateHTML, templatePath. intros -> Hfirst -> Hx Hy.
  rewrite replace_first by done. rewrite substitute_app_plain by done.
  repeat split; intros ->; cbn [app substitute];
    by rewrite (substitute_plain _ _ _ y).
Qed.

End Page.

Module DemoPage.
Import CorrPage.

(** A module directory with a template in which the placeholder occurs
    twice; the payload is written as the quoted name of the row file. *)
Definition page_host (template : string) : PageHost :=
  mkPageHost (lit "/app/dist/commands")
    (λ a b, a ++ lit "/" ++ b)
    (λ p, if bool_decide
               (p = lit "/app/dist/commands/../templates/correlation_d3.html")
          then inr (lit template)
          else inl ENOENT)
    (λ d, [34%N] ++ rowFile d ++ [34%N]).

Definition payload (name : string) : CorrelationData :=
  mkCorrelationData [] [] [] [] [] (lit name) (lit name).

End DemoPage.

Lemma generateHTML_without_placeholder_witness :
  CorrPage.generateHTML (DemoPage.page_host "<p>DATA</p>") (DemoPage.payload "a.jsonl")
  = inr (lit "<p>DATA</p>").
Proof.
  apply generateHTML_without_placeholder; [by vm_compute|].
  intros p q H. vm_compute in H.
  repeat (destruct p as [|? p]; simpl in H; [discriminate H|];
          first [discriminate H | injection H as _ H]).
Defined.

Lemma demo_first_occurrence (p q : jsstring) :
  lit "<p>" ++ CorrPage.placeholder ++ lit "</p>{{ DATA }}"
    = p ++ CorrPage.placeholder ++ q →
  (length (lit "<p>") ≤ length p)%nat.
Proof.
  intros H. vm_compute in H.
  do 3 (destruct p as [|? p]; simpl in H; [discriminate H|];
        injection H as _ H).
  simpl. lia.
Qed.

Lemma generateHTML_first_occurrence_witness :
  let ph := DemoPage.page_host "<p>{{ DATA }}</p>{{ DATA }}" in
  let data := DemoPage.payload "a.jsonl" in
  CorrPage.generateHTML ph data
  = inr (lit "<p>" ++ CorrPage.stringify ph data ++ lit "</p>{{ DATA }}").
Proof.
  intros ph data.
  destruct (generateHTML_first_occurrence ph data (lit "<p>")
              (lit "</p>{{ DATA }}")) as [_ H].
  - by vm_compute.
  - apply demo_first_occurrence.
  - apply H. apply (bool_decide_unpack _). by vm_compute.
Defined.

Lemma generateHTML_dollar_patterns_witness :
  let ph := DemoPage.page_host "<p>{{ DATA }}</p>{{ DATA }}" in
  let data := DemoPage.payload "a$&b" in
  CorrPage.generateHTML ph data
  = inr (lit "<p>" ++ ([34; 97]%N ++ CorrPage.placeholder ++ [98; 34]%N)
         ++ lit "</p>{{ DATA }}").
Proof.
  intros ph data.
  destruct (generateHTML_dollar_patterns ph data (lit "<p>")
              (lit "</p>{{ DATA }}") [34; 97]%N [98; 34]%N 38%N)
    as (H & _).
  - by vm_compute.
  - apply demo_first_occurrence.
  - by vm_compute.
  - apply (bool_decide_unpack _). by vm_compute.
  - apply (bool_decide_unpack _). by vm_compute.
  - by apply H.
Defined.

(** ** The command *)

Section Command.
Import CorrPage.
Variables (h : Host) (path_basename : jsstring → jsstring).
Variables (file1 : jsstring) (file2 : option jsstring) (model : jsstring).
Variables (events1 events2 : list stream_event).

Lemma given_some (arg : option jsstring) f :
  given arg = Some f ↔ arg = Some f ∧ f ≠ [].
Proof.
  destruct arg as [[|c g]|]; simpl; split; try done.
  - by intros [[=] ?].
  - by intros [= <-].
  - by intros [[= <-] _].
  - by intros [[=] _].
Qed.

Lemma loadEmbeddings_equal_length filePath events embs chunks :
  loadEmbeddings h filePath model events = Resolved embs chunks →
  length embs = length chunks.
Proof.
  unfold loadEmbeddings. intros H. by apply listen_equal_length in H.
Qed.

Lemma default_label_length (text : jsstring) :
  (length (truncateLabel text None) ≤ 33)%nat.
Proof.
  assert (∀ n : nat,
            (length (truncateLabel text (Some (Z.of_nat n))) ≤ Nat.max 3 (n + 1))%nat)
    as Hb.
  { intros n. unfold truncateLabel. simpl default.
    destruct (isImagePath text); [simpl; lia|].
    destruct (Z.gtb_spec (Z.of_nat (length text)) (Z.of_nat n)); [|lia].
    rewrite slice_prefix, length_app, length_take. simpl. lia. }
  apply (Hb 32%nat).
Qed.

(** What [main] has done when it starts the server. *)
Lemma main_serving out data :
  main h path_basename file1 file2 model events1 events2 = (out, Serving data) →
  ∃ embs1 embs2,
    loadEmbeddings h file1 model events1 = Resolved embs1 (rowFull data)
    ∧ match given file2 with
      | Some f =>
          loadEmbeddings h f model events2 = Resolved embs2 (colFull data)
          ∧ colFile data = path_basename f
      | None =>
          embs2 = embs1 ∧ colFull data = rowFull data
          ∧ colFile data = path_basename file1
      end
    ∧ out = ["Loading embeddings..."; "Computing correlation matrix..."]%string
    ∧ matrix data = (λ a, cosineSimilarity a <$> embs2) <$> embs1
    ∧ rowLabels data = (λ c, truncateLabel c None) <$> rowFull data
    ∧ colLabels data = (λ c, truncateLabel c None) <$> colFull data
    ∧ rowFile data = path_basename file1.
Proof.
  unfold main.
  destruct (loadEmbeddings h file1 model events1) as [embs1 chunks1| | |];
    try done.
  destruct (given file2) as [f|].
  - destruct (loadEmbeddings h f model events2) as [embs2 chunks2| | |];
      try done.
    rewrite computeCorrelationMatrix_eq. intros [= <- <-]. simpl.
    by exists embs1, embs2.
  - rewrite computeCorrelationMatrix_eq. intros [= <- <-]. simpl.
    by exists embs1, embs1.
Qed.

(** X13. With no second file, or the empty string for it, the first file
    is correlated with itself: the events of a second stream play no
    part, and the payload has the same labels, the same texts and the
    same file name on both axes, with the similarities of the embeddings
    of the first file against themselves. *)
Theorem main_single_file :
  file2 = None ∨ file2 = Some [] →
  main h path_basename file1 file2 model events1 events2
    = main h path_basename file1 None model events1 []
  ∧ ∀ out data,
      main h path_basename file1 file2 model events1 events2
        = (out, Serving data) →
      colLabels data = rowLabels data
      ∧ colFull data = rowFull data
      ∧ colFile data = rowFile data
      ∧ ∃ embs,
          loadEmbeddings h file1 model events1 = Resolved embs (rowFull data)
          ∧ matrix data = (λ a, cosineSimilarity a <$> embs) <$> embs.
Proof.
  intros Hnone. assert (given file2 = None) as Hgiven.
  { destruct Hnone as [Hnone|Hnone]; by rewrite Hnone. }
  split.
  - unfold main. by rewrite Hgiven.
  - intros out data (embs1 & embs2 & H1 & H2 & _ & Hm & Hr & Hc & Hf)%main_serving.
    rewrite Hgiven in H2. destruct H2 as (-> & Hfull & Hfile).
    rewrite Hc, Hr, Hfull, Hfile, Hf. repeat split. by exists embs1.
Qed.




End Command.

Module DemoRun.
Import CorrPage.

Definition run (file2 : option jsstring) (events1 events2 : list stream_event)
    : list string * main_outcome :=
  main Demo.host Demo.basename (lit "/data/run.jsonl") file2 (lit "m")
    events1 events2.

Definition two_records : list stream_event :=
  [ParserData (Demo.record "cat.png"); ParserData (Demo.record "a note");
   ParserEnd].

Definition broken_line : list stream_event :=
  [ParserData (Demo.record "a note");
   ParserError (mkError "Unexpected token")].

End DemoRun.

Lemma main_single_file_witness :
  DemoRun.run (Some []) DemoRun.two_records DemoRun.broken_line
  = DemoRun.run None DemoRun.two_records [].
Proof.
  refine (proj1 (main_single_file Demo.host Demo.basename _ (Some []) _ _ _ _)).
  by right.
Defined.



(** A run on a file that cannot be opened, and one on a file whose image
    is a directory: neither error is reported by [main]. *)
Example main_missing_file :
  DemoRun.run None [FileError ENOENT] []
  = (["Loading embeddings..."%string], CorrPage.Uncaught ENOENT)
  ∧ DemoRun.run None [ParserData (Demo.record "scans.png"); ParserEnd] []
  = (["Loading embeddings..."%string], CorrPage.Uncaught Demo.EISDIR).
Proof. split; by vm_compute. Qed.

(** ** Vectors with an entry that is not finite *)

(** A double that is an infinity of either sign or [NaN]. *)
Definition non_finite (x : float) : Prop :=
  Prim2SF x = S754_nan ∨ ∃ s, Prim2SF x = S754_infinity s.

Section NonFinite.
Implicit Types x y : float.

Lemma is_finite_false_spec x : is_finite x = false → non_finite x.
Proof.
  unfold is_finite, is_infinity, is_nan, non_finite.
  rewrite !FloatAxioms.eqb_spec, abs_spec.
  destruct (Prim2SF x) as [s|s| |s m e]; simpl; eauto.
  - by destruct s.
  - unfold SFeqb, SFcompare. simpl.
    rewrite Z.compare_refl, Pos.compare_cont_refl. by destruct s.
Qed.

Lemma add_non_finite_l x y : non_finite x → non_finite (x + y)%float.
Proof.
  unfold non_finite. intros H. rewrite add_spec.
  destruct H as [->|[s ->]]; [by left|].
  destruct (Prim2SF y) as [s'|s'| |s' m e]; simpl; eauto.
  destruct s, s'; simpl; eauto.
Qed.

Lemma add_non_finite_r x y : non_finite y → non_finite (x + y)%float.
Proof.
  unfold non_finite. intros H. rewrite add_spec.
  destruct H as [->|[s ->]].
  - left. by destruct (Prim2SF x).
  - destruct (Prim2SF x) as [s'|s'| |s' m e]; simpl; eauto.
    destruct s, s'; simpl; eauto.
Qed.

Lemma mul_non_finite_l x y : non_finite x → non_finite (x * y)%float.
Proof.
  unfold non_finite. intros H. rewrite mul_spec.
  destruct H as [->|[s ->]]; [by left|].
  destruct (Prim2SF y) as [s'|s'| |s' m e]; simpl; eauto.
Qed.

Lemma mul_non_finite_r x y : non_finite y → non_finite (x * y)%float.
Proof. rewrite mul_comm. apply mul_non_finite_l. Qed.

Lemma sqrt_non_finite x : non_finite x → non_finite (PrimFloat.sqrt x).
Proof.
  unfold non_finite. intros H. rewrite sqrt_spec.
  destruct H as [->|[[] ->]]; simpl; eauto.
Qed.

Lemma div_non_finite x y : non_finite x → non_finite y → (x / y)%float = nan.
Proof.
  unfold non_finite. intros Hx Hy. apply Prim2SF_inj. rewrite div_spec.
  change (Prim2SF nan) with S754_nan.
  destruct Hx as [->|[s ->]], Hy as [->|[s' ->]]; done.
Qed.

(** A sum stays outside the finite numbers once it has left them. *)
Lemma reduce_non_finite_acc (term : float → nat → float) (a : list number) :
  ∀ k acc, non_finite acc →
    non_finite (reduce_from (λ sum val i, sum + term val i)%float k acc a).
Proof.
  induction a as [|x a IH]; intros k acc Hacc; simpl; [done|].
  by apply IH, add_non_finite_l.
Qed.

(** One term that is not finite is enough. *)
Lemma reduce_non_finite_term (term : float → nat → float) (a : list number) :
  ∀ i x k acc, a !! i = Some x → non_finite (term x (k + i)%nat) →
    non_finite (reduce_from (λ sum val i, sum + term val i)%float k acc a).
Proof.
  induction a as [|y a IH]; intros i x k acc Hi Hterm; [done|].
  destruct i as [|i]; simpl in *.
  - injection Hi as ->. rewrite Nat.add_0_r in Hterm.
    by apply reduce_non_finite_acc, add_non_finite_r.
  - apply (IH i x); [done|]. by rewrite <- Nat.add_succ_comm in Hterm.
Qed.

Lemma sumSquares_non_finite (a : list number) i x :
  a !! i = Some x → non_finite x → non_finite (PrimFloat.sqrt (sumSquares a)).
Proof.
  intros Hi Hx. apply sqrt_non_finite.
  apply (reduce_non_finite_term (λ val _, val * val)%float a i x); [done|].
  by apply mul_non_finite_l.
Qed.

End NonFinite.

(** X17. An entry that is not finite spoils the similarity: when [a] has
    an infinity or a [NaN] at index [i], the similarity of [a] with any
    vector [b] is [NaN], and so is the similarity of [b] with [a] when
    [b] reaches index [i]. *)
Theorem cosineSimilarity_non_finite_entry (a b : list number) (i : nat) (x : number) :
  a !! i = Some x → is_finite x = false →
  cosineSimilarity a b = nan
  ∧ ((i < length b)%nat → cosineSimilarity b a = nan).
Proof.
  intros Hi Hx%is_finite_false_spec.
  pose proof (sumSquares_non_finite a i x Hi Hx) as Hnorm.
  unfold cosineSimilarity. split.
  - apply div_non_finite; [|by apply mul_non_finite_l].
    apply (reduce_non_finite_term (λ val j, val * toNumber (b !! j))%float a i x);
      [done|].
    by apply mul_non_finite_l.
  - intros [y Hy]%lookup_lt_is_Some_2.
    apply div_non_finite; [|by apply mul_non_finite_r].
    apply (reduce_non_finite_term (λ val j, val * toNumber (a !! j))%float b i y);
      [done|].
    simpl. rewrite Hi. by apply mul_non_finite_r.
Qed.

Lemma cosineSimilarity_non_finite_entry_witness :
  cosineSimilarity [1; infinity]%float [3; 4]%float = nan
  ∧ cosineSimilarity [3; 4]%float [1; infinity]%float = nan.
Proof.
  destruct (cosineSimilarity_non_finite_entry [1; infinity]%float [3; 4]%float
              1%nat infinity eq_refl eq_refl) as [H1 H2].
  split; [exact H1|]. apply H2. simpl. lia.
Defined.

(** The second part needs its bound: a shorter [b] does not meet the
    entry. *)
Example cosineSimilarity_infinity_not_met :
  cosineSimilarity [1]%float [1; infinity]%float = 0%float.
Proof. by vm_compute. Qed.
